(** * The configurator's accessors (pkg/configurator/methods.go)

    A shallow embedding of the read surface of the OSM configurator:
    the defaulted accessors of the ConfigMap snapshot and the
    normalisation of the operator-edited list of mesh CIDR ranges
    ([GetMeshCIDRRanges]).

    Go strings are byte sequences; they are embedded as [string], whose
    characters are the 256 byte values.  Go's [int] values that occur
    here stay far below 2^63 and are embedded as [Z]. *)

From Stdlib Require Import ZArith Ascii String List Lia.
From stdpp Require Import base gmap sets list strings sorting.

Local Open Scope Z_scope.

(** ** The pieces of Go's [strings] package used by the accessors *)

Module GoStrings.

(** [len(s)] *)
Definition len (s : string) : nat := String.length s.

(** [strings.ReplaceAll(s, old, new)] for a one-byte [old], the way the
    configurator calls it: every occurrence of the byte is replaced. *)
Fixpoint ReplaceAll (s : string) (old : ascii) (new : string) : string :=
  match s with
  | EmptyString => EmptyString
  | String c s' =>
      if Ascii.eqb c old then new +:+ ReplaceAll s' old new
      else String c (ReplaceAll s' old new)
  end.

(** [strings.Split(s, sep)] for a one-byte separator: the substrings
    between the separators, empty ones included; [Split("", sep)] is
    the one-element slice holding the empty string. *)
Fixpoint Split (s : string) (sep : ascii) : list string :=
  match s with
  | EmptyString => [EmptyString]
  | String c s' =>
      if Ascii.eqb c sep then EmptyString :: Split s' sep
      else match Split s' sep with
           | tok :: toks => String c tok :: toks
           | [] => [String c EmptyString]
           end
  end.

(** Membership of a byte in an ASCII cutset. *)
Definition in_cutset (cutset : string) (c : ascii) : bool :=
  existsb (Ascii.eqb c) (String.list_ascii_of_string cutset).

Fixpoint TrimLeft (s cutset : string) : string :=
  match s with
  | EmptyString => EmptyString
  | String c s' => if in_cutset cutset c then TrimLeft s' cutset else s
  end.

Fixpoint TrimRight (s cutset : string) : string :=
  match s with
  | EmptyString => EmptyString
  | String c s' =>
      match TrimRight s' cutset with
      | EmptyString => if in_cutset cutset c then EmptyString else String c EmptyString
      | r => String c r
      end
  end.

(** [strings.Trim(s, cutset)] for an ASCII cutset: the leading and the
    trailing bytes that belong to the cutset are removed. *)
Definition Trim (s cutset : string) : string :=
  TrimLeft (TrimRight s cutset) cutset.

(** [strings.Repeat(s, count)] *)
Fixpoint Repeat (s : string) (count : nat) : string :=
  match count with
  | O => EmptyString
  | S count => s +:+ Repeat s count
  end.

(** [strings.Join(elems, sep)] *)
Fixpoint Join (elems : list string) (sep : string) : string :=
  match elems with
  | [] => EmptyString
  | [x] => x
  | x :: rest => x +:+ sep +:+ Join rest sep
  end.

End GoStrings.

(** ** [sort.Strings] *)

Module GoSort.

(** [StringSlice.Less]: Go's [<] on strings, the byte-wise
    lexicographic order. *)
Definition Less (a b : string) : bool := String.ltb a b.

(** [a] may stand before [b] in a sorted slice: [b < a] does not hold. *)
Definition string_le (a b : string) : Prop := Less b a = false.

#[global] Instance string_le_dec a b : Decision (string_le a b).
Proof. unfold string_le. apply _. Defined.

(** [sort.Strings(x)] leaves [x] in increasing order.  The order is
    total and antisymmetric on strings, so the sorted arrangement of a
    slice is unique (lemma [Strings_unique] below) and any sorting
    algorithm computes it; merge sort is used here. *)
Definition Strings (x : list string) : list string :=
  merge_sort string_le x.

End GoSort.

(** ** [net.ParseCIDR] and what it calls

    Go's [net] package as the toolchains of the repository's time ship
    it (Go 1.14 to 1.16): [ParseCIDR] tries [parseIPv4] and then
    [parseIPv6] on the part before the slash and reads the prefix length
    with [dtoi].  None of the indexings below can be out of range: each
    stands behind a test of the length. *)

Module GoNet.
Import GoStrings.

Definition IPv4len : Z := 4.
Definition IPv6len : Z := 16.
Definition big : Z := 0xFFFFFF.

(** An [IP] and an [IPMask] are byte slices; the nil slice is [[]]. *)
Definition IP := list Z.
Definition IPMask := list Z.
Record IPNet := { net_IP : IP; net_Mask : IPMask }.

(** The value of a byte of a string. *)
Definition byte (c : ascii) : Z := Z.of_N (N_of_ascii c).

(** [lo <= c && c <= hi] on bytes *)
Definition between (lo c hi : ascii) : bool :=
  (byte lo <=? byte c) && (byte c <=? byte hi).

(** [s[k:]] and [s[:k]] *)
Fixpoint slice_from (s : string) (k : nat) : string :=
  match k, s with
  | S k', String _ s' => slice_from s' k'
  | _, _ => s
  end.

Fixpoint slice_to (s : string) (k : nat) : string :=
  match k, s with
  | S k', String c s' => String c (slice_to s' k')
  | _, _ => EmptyString
  end.

(** [k < len(s) && s[k] == c] *)
Definition byte_at_is (s : string) (k : nat) (c : ascii) : bool :=
  match String.get k s with
  | Some x => Ascii.eqb x c
  | None => false
  end.

(** [bytealg.IndexByteString(s, c)]; [None] stands for [-1]. *)
Fixpoint IndexByteString (s : string) (c : ascii) : option nat :=
  match s with
  | EmptyString => None
  | String x s' =>
      if Ascii.eqb x c then Some O
      else option_map S (IndexByteString s' c)
  end.

(** The loop of [dtoi], entered with the number [n] read so far and the
    count [i] of bytes consumed. *)
Fixpoint dtoi_loop (s : string) (n : Z) (i : nat) : Z * nat * bool :=
  match s with
  | String c s' =>
      if between "0" c "9" then
        let n := n * 10 + (byte c - byte "0") in
        if big <=? n then (big, i, false)
        else dtoi_loop s' n (S i)
      else if (i =? 0)%nat then (0, O, false) else (n, i, true)
  | EmptyString => if (i =? 0)%nat then (0, O, false) else (n, i, true)
  end.

(** [dtoi(s)]: decimal to integer; number, bytes consumed, success. *)
Definition dtoi (s : string) : Z * nat * bool := dtoi_loop s 0 O.

(** The value of a hexadecimal digit, as the three branches of [xtoi]. *)
Definition xdigit (c : ascii) : option Z :=
  if between "0" c "9" then Some (byte c - byte "0")
  else if between "a" c "f" then Some (byte c - byte "a" + 10)
  else if between "A" c "F" then Some (byte c - byte "A" + 10)
  else None.

Fixpoint xtoi_loop (s : string) (n : Z) (i : nat) : Z * nat * bool :=
  match s with
  | String c s' =>
      match xdigit c with
      | Some d =>
          let n := n * 16 + d in
          if big <=? n then (0, i, false)
          else xtoi_loop s' n (S i)
      | None => if (i =? 0)%nat then (0, i, false) else (n, i, true)
      end
  | EmptyString => if (i =? 0)%nat then (0, i, false) else (n, i, true)
  end.

(** [xtoi(s)]: hexadecimal to integer; number, bytes consumed, success. *)
Definition xtoi (s : string) : Z * nat * bool := xtoi_loop s 0 O.

Definition v4InV6Prefix : IP := [0; 0; 0; 0; 0; 0; 0; 0; 0; 0; 0xff; 0xff].

(** [IPv4(a, b, c, d)]: the 16-byte form of an IPv4 address. *)
Definition IPv4 (a b c d : Z) : IP := v4InV6Prefix ++ [a; b; c; d].

(** One round of the loop of [parseIPv4], for octet number [i]: the
    octet and the rest of the string, or [None] where the loop returns
    nil. *)
Definition parseIPv4_octet (i : nat) (s : string) : option (Z * string) :=
  if (len s =? 0)%nat then None
  else
    let after_dot :=
      if (0 <? i)%nat then
        if byte_at_is s 0 "." then Some (slice_from s 1) else None
      else Some s in
    match after_dot with
    | None => None
    | Some s =>
        let '(n, c, ok) := dtoi s in
        if negb ok || (0xFF <? n) then None
        else Some (n, slice_from s c)
    end.

Fixpoint parseIPv4_loop (todo i : nat) (s : string) (p : list Z)
  : option (list Z * string) :=
  match todo with
  | O => Some (p, s)
  | S todo =>
      match parseIPv4_octet i s with
      | None => None
      | Some (n, s) => parseIPv4_loop todo (S i) s (<[i := n]> p)
      end
  end.

(** [parseIPv4(s)]: an address of the form d.d.d.d *)
Definition parseIPv4 (s : string) : option IP :=
  match parseIPv4_loop (Z.to_nat IPv4len) 0 s [0; 0; 0; 0] with
  | Some ([a; b; c; d], s) =>
      if (len s =? 0)%nat then Some (IPv4 a b c d) else None
  | _ => None
  end.

(** [ip[i] = x] on a byte slice *)
Definition set_byte (ip : IP) (i : Z) (x : Z) : IP :=
  <[Z.to_nat i := x]> ip.

(** [ip[i]] *)
Definition get_byte (ip : IP) (i : Z) : Z := ip !!! Z.to_nat i.

(** The main loop of [parseIPv6], [for i < IPv6len { ... }], entered
    with the state [(ip, ellipsis, i, s)].  It yields the state in
    which the loop is left (its guard fails, or a [break]), and [None]
    where the body returns nil.  Every round that goes on to the next
    adds 2 to [i], so [IPv6len / 2] rounds of [fuel] are never used up
    (lemma [parseIPv6_loop_fuel]). *)
Fixpoint parseIPv6_loop (fuel : nat) (ip : IP) (ellipsis i : Z) (s : string)
  : option (IP * Z * Z * string) :=
  if negb (i <? IPv6len) then Some (ip, ellipsis, i, s)
  else
    match fuel with
    | O => None
    | S fuel =>
        (* Hex number. *)
        let '(n, c, ok) := xtoi s in
        if negb ok || (0xFFFF <? n) then None
        else if byte_at_is s c "." then
          (* If followed by dot, might be in trailing IPv4. *)
          if (ellipsis <? 0) && negb (i =? IPv6len - IPv4len) then None
          else if IPv6len <? i + IPv4len then None
          else
            match parseIPv4 s with
            | None => None
            | Some ip4 =>
                let ip := set_byte ip i (get_byte ip4 12) in
                let ip := set_byte ip (i + 1) (get_byte ip4 13) in
                let ip := set_byte ip (i + 2) (get_byte ip4 14) in
                let ip := set_byte ip (i + 3) (get_byte ip4 15) in
                Some (ip, ellipsis, i + IPv4len, EmptyString)
            end
        else
          (* Save this 16-bit chunk. *)
          let ip := set_byte ip i (Z.shiftr n 8) in
          let ip := set_byte ip (i + 1) (Z.land n 0xff) in
          let i := i + 2 in
          (* Stop at end of string. *)
          let s := slice_from s c in
          if (len s =? 0)%nat then Some (ip, ellipsis, i, s)
          (* Otherwise must be followed by colon and more. *)
          else if negb (byte_at_is s 0 ":") || (len s =? 1)%nat then None
          else
            let s := slice_from s 1 in
            (* Look for ellipsis. *)
            if byte_at_is s 0 ":" then
              if 0 <=? ellipsis then None
              else
                let ellipsis := i in
                let s := slice_from s 1 in
                if (len s =? 0)%nat then Some (ip, ellipsis, i, s)
                else parseIPv6_loop fuel ip ellipsis i s
            else parseIPv6_loop fuel ip ellipsis i s
    end.

(** [for j := i - 1; j >= ellipsis; j-- { ip[j+n] = ip[j] }], with
    [cnt] rounds left. *)
Fixpoint shift_up (cnt : nat) (j n : Z) (ip : IP) : IP :=
  match cnt with
  | O => ip
  | S cnt => shift_up cnt (j - 1) n (set_byte ip (j + n) (get_byte ip j))
  end.

(** [for j := ellipsis + n - 1; j >= ellipsis; j-- { ip[j] = 0 }], with
    [cnt] rounds left. *)
Fixpoint zero_fill (cnt : nat) (j : Z) (ip : IP) : IP :=
  match cnt with
  | O => ip
  | S cnt => zero_fill cnt (j - 1) (set_byte ip j 0)
  end.

(** [parseIPv6(s)]: a literal IPv6 address (RFC 4291, RFC 5952), without
    zone. *)
Definition parseIPv6 (s : string) : option IP :=
  let ip := replicate (Z.to_nat IPv6len) 0 in
  (* Might have leading ellipsis; might be only ellipsis. *)
  let leading := (2 <=? len s)%nat && byte_at_is s 0 ":" && byte_at_is s 1 ":" in
  if leading && (len (slice_from s 2) =? 0)%nat then Some ip
  else
    let ellipsis := if leading then 0 else -1 in
    let s := if leading then slice_from s 2 else s in
    match parseIPv6_loop (Z.to_nat (IPv6len / 2)) ip ellipsis 0 s with
    | None => None
    | Some (ip, ellipsis, i, s) =>
        (* Must have used entire string. *)
        if negb (len s =? 0)%nat then None
        (* If didn't parse enough, expand ellipsis. *)
        else if i <? IPv6len then
          if ellipsis <? 0 then None
          else
            let n := IPv6len - i in
            let ip := shift_up (Z.to_nat (i - ellipsis)) (i - 1) n ip in
            let ip := zero_fill (Z.to_nat n) (ellipsis + n - 1) ip in
            Some ip
        (* Ellipsis must represent at least one 0 group. *)
        else if 0 <=? ellipsis then None
        else Some ip
    end.

(** The loop of [CIDRMask] over the [l] bytes of the mask that are still
    to be written, with [n] one-bits left. *)
Fixpoint CIDRMask_loop (l : nat) (n : Z) : IPMask :=
  match l with
  | O => []
  | S l =>
      if 8 <=? n then 0xff :: CIDRMask_loop l (n - 8)
      else Z.lxor 0xff (Z.shiftr 0xff n) :: CIDRMask_loop l 0
  end.

(** [CIDRMask(ones, bits)] *)
Definition CIDRMask (ones bits : Z) : IPMask :=
  if negb (bits =? 8 * IPv4len) && negb (bits =? 8 * IPv6len) then []
  else if (ones <? 0) || (bits <? ones) then []
  else CIDRMask_loop (Z.to_nat (bits / 8)) ones.

Definition allFF (b : list Z) : bool := forallb (Z.eqb 0xff) b.
Definition bytesEqual (a b : list Z) : bool := bool_decide (a = b).

(** [ip.Mask(mask)] *)
Definition Mask (ip : IP) (mask : IPMask) : IP :=
  let mask :=
    if (length mask =? Z.to_nat IPv6len)%nat && (length ip =? Z.to_nat IPv4len)%nat
       && allFF (take 12 mask)
    then drop 12 mask else mask in
  let ip :=
    if (length mask =? Z.to_nat IPv4len)%nat && (length ip =? Z.to_nat IPv6len)%nat
       && bytesEqual (take 12 ip) v4InV6Prefix
    then drop 12 ip else ip in
  if negb (length ip =? length mask)%nat then []
  else zip_with Z.land ip mask.

(** [net.ParseCIDR(s)]: the address and the network of a CIDR notation
    such as "192.0.2.0/24" or "2001:db8::/32"; [None] is the
    [ParseError]. *)
Definition ParseCIDR (s : string) : option (IP * IPNet) :=
  match IndexByteString s "/" with
  | None => None
  | Some i =>
      let addr := slice_to s i in
      let mask := slice_from s (i + 1) in
      let '(iplen, ip) :=
        match parseIPv4 addr with
        | Some ip => (IPv4len, Some ip)
        | None => (IPv6len, parseIPv6 addr)
        end in
      let '(n, i, ok) := dtoi mask in
      match ip with
      | None => None
      | Some ip =>
          if negb ok || negb (i =? len mask)%nat || (n <? 0) || (8 * iplen <? n)
          then None
          else
            let m := CIDRMask n (8 * iplen) in
            Some (ip, {| net_IP := Mask ip m; net_Mask := m |})
      end
  end.

(** Every byte of [s] satisfies [P]. *)
Fixpoint all_bytes (P : ascii → bool) (s : string) : bool :=
  match s with
  | EmptyString => true
  | String c s' => P c && all_bytes P s'
  end.

(** The bytes a CIDR notation is written with: hexadecimal digits, the
    dot, the colon and the slash. *)
Definition cidr_byte (c : ascii) : bool :=
  match xdigit c with
  | Some _ => true
  | None => Ascii.eqb c "." || Ascii.eqb c ":" || Ascii.eqb c "/"
  end.

(** What a parser took from the front of [s] before it left [s']: bytes
    of a CIDR notation only. *)
Definition consumed (s s' : string) : Prop :=
  ∃ pre, s = pre +:+ s' ∧ all_bytes cidr_byte pre = true.

(** A CIDR notation: an address, a slash and a prefix length in decimal
    digits that is within the number of bits of the address's family. *)
Definition CIDR_notation (s : string) : Prop :=
  ∃ (addr mask : string) (n : Z),
    s = addr +:+ "/" +:+ mask
    ∧ IndexByteString addr "/" = None
    ∧ dtoi mask = (n, len mask, true)
    ∧ ((is_Some (parseIPv4 addr) ∧ 0 ≤ n ≤ 8 * IPv4len)
       ∨ (parseIPv4 addr = None ∧ is_Some (parseIPv6 addr)
          ∧ 0 ≤ n ≤ 8 * IPv6len)).

End GoNet.

(** ** [fmt.Sprintf] *)

Module GoFmt.
Import GoStrings.

(** The note [Sprintf] appends for operands the format did not use. *)
Definition extra (a : list string) : string :=
  match a with
  | [] => EmptyString
  | _ => "%!(EXTRA " +:+ Join (map (String.append "string=") a) ", " +:+ ")"
  end.

(** [fmt.Sprintf(format, a...)] for a format whose only verb is [%s]
    and operands that are strings: each [%s] is replaced by the next
    operand. *)
Fixpoint Sprintf (format : string) (a : list string) : string :=
  match format with
  | EmptyString => extra a
  | String c rest =>
      match rest with
      | String v rest' =>
          if Ascii.eqb c "%" && Ascii.eqb v "s" then
            match a with
            | x :: a' => x +:+ Sprintf rest' a'
            | [] => "%!s(MISSING)" +:+ Sprintf rest' []
            end
          else String c (Sprintf rest a)
      | EmptyString => String c (Sprintf rest a)
      end
  end.

End GoFmt.

(** ** The configurator *)

Module Configurator.
Import GoStrings GoSort GoNet GoFmt.

(** Modelled from the spec: the declaration of [osmConfig] is not among
    the sources.  The fields are the ones the accessors read, with the
    types their uses fix: the strings are compared with a string
    literal, and [TracingPort] is an integer that [GetTracingPort]
    converts with [uint32(...)] (section 3 of the specification gives
    it 16 unsigned bits). *)
Record osmConfig := {
  PermissiveTrafficPolicyMode : bool;
  Egress : bool;
  PrometheusScraping : bool;
  TracingEnable : bool;
  TracingAddress : string;
  TracingPort : Z;
  TracingEndpoint : string;
  MeshCIDRRanges : string;
  UseHTTPSIngress : bool;
  EnvoyLogLevel : string
}.

(** Modelled from the spec: [Client] and its [getConfigMap] are not
    among the sources.  [getConfigMap] yields the snapshot that is
    current when an accessor runs; the client is embedded with that
    snapshot and the two names the accessors read. *)
Record Client := {
  osmNamespace : string;
  osmConfigMapName : string;
  configMap : osmConfig
}.

Definition getConfigMap (c : Client) : osmConfig := configMap c.

(** The client after the ConfigMap's mesh_cidr_ranges entry became [raw]. *)
Definition withMeshCIDRRanges (c : Client) (raw : string) : Client :=
  let cm := configMap c in
  {| osmNamespace := osmNamespace c;
     osmConfigMapName := osmConfigMapName c;
     configMap :=
       {| PermissiveTrafficPolicyMode := PermissiveTrafficPolicyMode cm;
          Egress := Egress cm;
          PrometheusScraping := PrometheusScraping cm;
          TracingEnable := TracingEnable cm;
          TracingAddress := TracingAddress cm;
          TracingPort := TracingPort cm;
          TracingEndpoint := TracingEndpoint cm;
          MeshCIDRRanges := raw;
          UseHTTPSIngress := UseHTTPSIngress cm;
          EnvoyLogLevel := EnvoyLogLevel cm |} |}.

(** The conversion [uint32(x)] of an integer. *)
Definition uint32 (x : Z) : Z := x mod 2 ^ 32.

Definition GetOSMNamespace (c : Client) : string := osmNamespace c.

Definition IsPermissiveTrafficPolicyMode (c : Client) : bool :=
  PermissiveTrafficPolicyMode (getConfigMap c).

Definition IsEgressEnabled (c : Client) : bool := Egress (getConfigMap c).

Definition IsPrometheusScrapingEnabled (c : Client) : bool :=
  PrometheusScraping (getConfigMap c).

Definition IsTracingEnabled (c : Client) : bool :=
  TracingEnable (getConfigMap c).

Section Defaults.
(** The constants of [pkg/constants] that the accessors fall back to;
    their declarations are not among the sources. *)
Variable DefaultTracingHost : string.
Variable DefaultTracingPort : Z.
Variable DefaultTracingEndpoint : string.
Variable DefaultEnvoyLogLevel : string.

Definition GetTracingHost (c : Client) : string :=
  let tracingAddress := TracingAddress (getConfigMap c) in
  if negb (String.eqb tracingAddress "") then tracingAddress
  else Sprintf "%s.%s.svc.cluster.local" [DefaultTracingHost; GetOSMNamespace c].

Definition GetTracingPort (c : Client) : Z :=
  let tracingPort := TracingPort (getConfigMap c) in
  if negb (tracingPort =? 0) then uint32 tracingPort
  else DefaultTracingPort.

Definition GetTracingEndpoint (c : Client) : string :=
  let tracingEndpoint := TracingEndpoint (getConfigMap c) in
  if negb (String.eqb tracingEndpoint "") then tracingEndpoint
  else DefaultTracingEndpoint.

Definition GetEnvoyLogLevel (c : Client) : string :=
  let logLevel := EnvoyLogLevel (getConfigMap c) in
  if negb (String.eqb logLevel "") then logLevel
  else DefaultEnvoyLogLevel.
End Defaults.

Definition UseHTTPSIngress' (c : Client) : bool :=
  UseHTTPSIngress (getConfigMap c).

(** The body of the loop of [GetMeshCIDRRanges] over the candidate
    [cidr].  The state is the map [cidrSet], whose values are all nil,
    and the error log; a log line is recorded by the token it reports. *)
Definition cidr_step (st : gmap string unit * list string) (cidr : string)
  : gmap string unit * list string :=
  let '(cidrSet, logged) := st in
  let trimmedCIDR := Trim cidr " " in
  if (len trimmedCIDR =? 0)%nat then (cidrSet, logged)
  else
    match ParseCIDR trimmedCIDR with
    | None => (cidrSet, logged ++ [trimmedCIDR])
    | Some _ => (<[trimmedCIDR := tt]> cidrSet, logged)
    end.

(** [GetMeshCIDRRanges] with its log.  [range cidrSet] visits the keys
    in an order Go leaves open; [map_to_list] fixes one, and the result
    is the same for every other (lemma [Strings_order_irrelevant]). *)
Definition GetMeshCIDRRanges_run (c : Client) : list string * list string :=
  let noSpaces := ReplaceAll (MeshCIDRRanges (getConfigMap c)) " " "," in
  let commaSeparatedCIDRs := Split noSpaces "," in
  let '(cidrSet, logged) := fold_left cidr_step commaSeparatedCIDRs (∅, []) in
  let cidrs := (map_to_list cidrSet).*1 in
  (Strings cidrs, logged).

Definition GetMeshCIDRRanges (c : Client) : list string :=
  (GetMeshCIDRRanges_run c).1.

(** The error log of a call of [GetMeshCIDRRanges]. *)
Definition GetMeshCIDRRanges_log (c : Client) : list string :=
  (GetMeshCIDRRanges_run c).2.

(** The values [trimmedCIDR] takes in the loop of [GetMeshCIDRRanges],
    in the order of the rounds. *)
Definition trimmedCIDRs (c : Client) : list string :=
  let noSpaces := ReplaceAll (MeshCIDRRanges (getConfigMap c)) " " "," in
  (λ cidr, Trim cidr " ") <$> Split noSpaces ",".

(** The two ways a round of the loop goes on past its first test: the
    token is not empty and [net.ParseCIDR] accepts it, or rejects it. *)
Definition valid_token (t : string) : Prop :=
  t ≠ "" ∧ is_Some (ParseCIDR t).

Definition invalid_token (t : string) : Prop :=
  t ≠ "" ∧ ParseCIDR t = None.

#[global] Instance valid_token_dec t : Decision (valid_token t).
Proof. unfold valid_token. apply _. Defined.

#[global] Instance invalid_token_dec t : Decision (invalid_token t).
Proof. unfold invalid_token. apply _. Defined.

(** The two bytes that separate the items of mesh_cidr_ranges. *)
Definition is_delimiter (d : ascii) : bool :=
  Ascii.eqb d " " || Ascii.eqb d ",".

(** The number of delimiters in a raw list of ranges. *)
Fixpoint count_delimiters (raw : string) : nat :=
  match raw with
  | EmptyString => O
  | String d raw' =>
      ((if is_delimiter d then 1 else 0) + count_delimiters raw')%nat
  end.

(** [&osmConfig{}]: every field has its zero value. *)
Definition zeroConfig : osmConfig :=
  {| PermissiveTrafficPolicyMode := false;
     Egress := false;
     PrometheusScraping := false;
     TracingEnable := false;
     TracingAddress := "";
     TracingPort := 0;
     TracingEndpoint := "";
     MeshCIDRRanges := "";
     UseHTTPSIngress := false;
     EnvoyLogLevel := "" |}.

(** A controller in the namespace osm-system whose snapshot holds the
    zero values: its string fields are empty, whether the ConfigMap
    left them out or set them to the empty string. *)
Definition zeroClient : Client :=
  {| osmNamespace := "osm-system";
     osmConfigMapName := "osm-config";
     configMap := zeroConfig |}.

(** The same controller with a ConfigMap that sets the tracing fields
    and the log level. *)
Definition tracingClient : Client :=
  {| osmNamespace := "osm-system";
     osmConfigMapName := "osm-config";
     configMap :=
       {| PermissiveTrafficPolicyMode := false;
          Egress := true;
          PrometheusScraping := true;
          TracingEnable := true;
          TracingAddress := "jaeger.tracing.svc.cluster.local";
          TracingPort := 9412;
          TracingEndpoint := "/api/v1/spans";
          MeshCIDRRanges := "10.0.0.0/8, 192.168.0.0/16  10.0.0.0/8";
          UseHTTPSIngress := false;
          EnvoyLogLevel := "debug" |} |}.

End Configurator.

Import GoStrings GoSort GoNet GoFmt Configurator.

(** * Properties *)

(** ** The order of [sort.Strings] *)

Section StringOrder.

Lemma compare_refl (s : string) : String.compare s s = Eq.
Proof.
  induction s as [|c s IH]; simpl; [done|].
  unfold Ascii.compare. by rewrite N.compare_refl.
Qed.

Lemma compare_lt_trans (a b c : string) :
  String.compare a b = Lt → String.compare b c = Lt → String.compare a c = Lt.
Proof.
  revert b c. induction a as [|x a IH]; intros [|y b] [|z c]; simpl; try done.
  unfold Ascii.compare.
  destruct (N.compare_spec (N_of_ascii x) (N_of_ascii y)) as [Hxy|Hxy|Hxy];
    destruct (N.compare_spec (N_of_ascii y) (N_of_ascii z)) as [Hyz|Hyz|Hyz];
    try done; intros H1 H2.
  - rewrite Hxy, Hyz, N.compare_refl. eauto.
  - rewrite Hxy. by apply N.compare_lt_iff in Hyz as ->.
  - rewrite <- Hyz. by apply N.compare_lt_iff in Hxy as ->.
  - assert (N_of_ascii x < N_of_ascii z)%N as Hxz by lia.
    by apply N.compare_lt_iff in Hxz as ->.
Qed.

(** [string_le a b] says that [a] compares below or equal to [b]. *)
Lemma string_le_compare (a b : string) :
  string_le a b ↔ String.compare a b ≠ Gt.
Proof.
  unfold string_le, Less, String.ltb. rewrite (String.compare_antisym b a).
  destruct (String.compare a b); simpl; split; congruence.
Qed.

Lemma string_le_leb (a b : string) : string_le a b ↔ String.leb a b = true.
Proof.
  rewrite string_le_compare. unfold String.leb.
  destruct (String.compare a b); split; congruence.
Qed.

#[global] Instance string_le_refl : Reflexive string_le.
Proof. intros a. apply string_le_compare. by rewrite compare_refl. Qed.

#[global] Instance string_le_trans : Transitive string_le.
Proof.
  intros a b c. rewrite !string_le_compare. intros Hab Hbc.
  destruct (String.compare a b) eqn:E1; [|clear Hab|done].
  - apply String.compare_eq_iff in E1 as ->. done.
  - destruct (String.compare b c) eqn:E2; [| |done].
    + apply String.compare_eq_iff in E2 as <-. by rewrite E1.
    + by rewrite (compare_lt_trans _ _ _ E1 E2).
Qed.

#[global] Instance string_le_total : Total string_le.
Proof.
  intros a b. rewrite !string_le_leb. apply String.leb_total.
Qed.

#[global] Instance string_le_antisym : AntiSymm (=) string_le.
Proof.
  intros a b. rewrite !string_le_leb. apply String.leb_antisym.
Qed.

(** Below or equal and different is Go's [<]. *)
Lemma string_le_neq_Less (a b : string) :
  string_le a b → a ≠ b → Less a b = true.
Proof.
  rewrite string_le_compare. unfold Less, String.ltb. intros Hle Hne.
  destruct (String.compare a b) eqn:E; [|done|done].
  by apply String.compare_eq_iff in E.
Qed.

Lemma Strings_sorted (x : list string) : StronglySorted string_le (Strings x).
Proof. apply StronglySorted_merge_sort; apply _. Qed.

Lemma Strings_Permutation (x : list string) : Strings x ≡ₚ x.
Proof. apply merge_sort_Permutation. Qed.

(** The sorted arrangement of a slice is unique: what [sort.Strings]
    leaves does not depend on the order its input came in. *)
Lemma Strings_order_irrelevant (x y : list string) :
  x ≡ₚ y → Strings x = Strings y.
Proof.
  intros Hxy. apply (Sorted_unique string_le).
  - apply Sorted_merge_sort; apply _.
  - apply Sorted_merge_sort; apply _.
  - by rewrite !Strings_Permutation.
Qed.

Lemma Strings_unique (x y : list string) :
  Sorted string_le y → y ≡ₚ x → Strings x = y.
Proof.
  intros Hy Hxy. apply (Sorted_unique string_le); [|done|].
  - apply Sorted_merge_sort; apply _.
  - by rewrite Strings_Permutation.
Qed.

End StringOrder.

(** ** The string functions *)

Section StringFacts.

Lemma append_nil_l (s : string) : "" +:+ s = s.
Proof. reflexivity. Qed.

Lemma append_cons (c : ascii) (a b : string) :
  String c a +:+ b = String c (a +:+ b).
Proof. reflexivity. Qed.

Lemma append_nil_r (s : string) : s +:+ "" = s.
Proof. induction s as [|c s IH]; rewrite ?append_cons, ?append_nil_l; congruence. Qed.

Lemma append_assoc (a b c : string) : (a +:+ b) +:+ c = a +:+ b +:+ c.
Proof. induction a as [|x a IH]; rewrite ?append_cons, ?append_nil_l; congruence. Qed.

(** [IndexByteString s c = None] reads "the byte [c] does not occur in
    [s]". *)
Lemma absent_cons (x : ascii) (s : string) (c : ascii) :
  IndexByteString (String x s) c = None ↔ x ≠ c ∧ IndexByteString s c = None.
Proof.
  simpl. destruct (Ascii.eqb_spec x c) as [->|Hne].
  - split; [done|]. by intros [? _].
  - destruct (IndexByteString s c); simpl; split; try done. by intros [_ ?].
Qed.

Lemma absent_app (a b : string) (c : ascii) :
  IndexByteString (a +:+ b) c = None
  ↔ IndexByteString a c = None ∧ IndexByteString b c = None.
Proof.
  induction a as [|x a IH].
  - rewrite append_nil_l. simpl. tauto.
  - rewrite append_cons, !absent_cons, IH. tauto.
Qed.

Lemma ReplaceAll_absent (s : string) (old : ascii) (new : string) :
  IndexByteString new old = None →
  IndexByteString (ReplaceAll s old new) old = None.
Proof.
  intros Hnew. induction s as [|c s IH]; simpl; [done|].
  destruct (Ascii.eqb_spec c old) as [->|Hne].
  - by apply absent_app.
  - by apply absent_cons.
Qed.

Lemma ReplaceAll_id (s : string) (old : ascii) (new : string) :
  IndexByteString s old = None → ReplaceAll s old new = s.
Proof.
  induction s as [|c s IH]; [done|].
  rewrite absent_cons. intros [Hne Hs]. simpl.
  destruct (Ascii.eqb_spec c old); [done|]. by rewrite IH.
Qed.

Lemma ReplaceAll_app (a b : string) (old : ascii) (new : string) :
  ReplaceAll (a +:+ b) old new = ReplaceAll a old new +:+ ReplaceAll b old new.
Proof.
  induction a as [|c a IH]; [done|].
  rewrite append_cons. simpl.
  destruct (Ascii.eqb c old); rewrite IH; [|done].
  by rewrite append_assoc.
Qed.

(** Replacing one byte by one byte twice is replacing it once. *)
Lemma ReplaceAll_idemp (s : string) (old new : ascii) :
  new ≠ old →
  ReplaceAll (ReplaceAll s old (String new "")) old (String new "")
  = ReplaceAll s old (String new "").
Proof.
  intros Hne. apply ReplaceAll_id, ReplaceAll_absent.
  apply absent_cons. done.
Qed.

Lemma Split_not_nil (s : string) (sep : ascii) : Split s sep ≠ [].
Proof.
  destruct s as [|c s]; simpl; [done|].
  destruct (Ascii.eqb c sep); [done|]. by destruct (Split s sep).
Qed.

Lemma Split_cons_sep (s : string) (sep : ascii) :
  Split (String sep s) sep = "" :: Split s sep.
Proof. simpl. by rewrite Ascii.eqb_refl. Qed.

Lemma Split_cons_other (c : ascii) (s : string) (sep : ascii) :
  c ≠ sep →
  ∃ tok toks, Split s sep = tok :: toks
              ∧ Split (String c s) sep = String c tok :: toks.
Proof.
  intros Hne. simpl. destruct (Ascii.eqb_spec c sep); [done|].
  pose proof (Split_not_nil s sep). destruct (Split s sep) as [|tok toks]; [done|].
  eauto.
Qed.

(** A substring between two separators holds no separator, and no byte
    that the split string does not hold. *)
Lemma Split_absent_sep (s : string) (sep : ascii) :
  Forall (λ tok, IndexByteString tok sep = None) (Split s sep).
Proof.
  induction s as [|c s IH]; simpl.
  - by repeat constructor.
  - destruct (Ascii.eqb_spec c sep) as [->|Hne]; [by constructor|].
    destruct (Split s sep) as [|tok toks]; [repeat constructor; by apply absent_cons|].
    inversion_clear IH. constructor; [|done]. by apply absent_cons.
Qed.

Lemma Split_absent (s : string) (sep c : ascii) :
  IndexByteString s c = None →
  Forall (λ tok, IndexByteString tok c = None) (Split s sep).
Proof.
  induction s as [|x s IH]; simpl.
  - by repeat constructor.
  - intros Hx. apply (absent_cons x s c) in Hx as [Hne Hs].
    specialize (IH Hs).
    destruct (Ascii.eqb x sep); [by constructor|].
    destruct (Split s sep) as [|tok toks]; [repeat constructor; by apply absent_cons|].
    inversion_clear IH. constructor; [|done]. by apply absent_cons.
Qed.

Lemma Split_absent_id (s : string) (sep : ascii) :
  IndexByteString s sep = None → Split s sep = [s].
Proof.
  induction s as [|c s IH]; [done|].
  rewrite absent_cons. intros [Hne Hs]. simpl.
  destruct (Ascii.eqb_spec c sep); [done|]. by rewrite IH.
Qed.

Lemma Split_app (a b : string) (sep : ascii) :
  IndexByteString a sep = None →
  Split (a +:+ String sep b) sep = a :: Split b sep.
Proof.
  induction a as [|c a IH].
  - intros _. apply Split_cons_sep.
  - rewrite absent_cons. intros [Hne Ha].
    rewrite append_cons. simpl. destruct (Ascii.eqb_spec c sep); [done|]. by rewrite IH.
Qed.

(** Splitting what [Join] glued gives the pieces back. *)
Lemma Split_Join (elems : list string) (sep : ascii) :
  elems ≠ [] →
  Forall (λ x, IndexByteString x sep = None) elems →
  Split (Join elems (String sep "")) sep = elems.
Proof.
  induction elems as [|x rest IH]; [done|]. intros _ Hall.
  inversion_clear Hall as [|? ? Hx Hrest].
  destruct rest as [|y rest].
  - simpl. by apply Split_absent_id.
  - change (Join (x :: y :: rest) (String sep ""))
      with (x +:+ String sep "" +:+ Join (y :: rest) (String sep "")).
    rewrite append_cons, append_nil_l.
    rewrite Split_app by done. f_equal. by apply IH.
Qed.

Lemma Join_absent (elems : list string) (sep : string) (c : ascii) :
  IndexByteString sep c = None →
  Forall (λ x, IndexByteString x c = None) elems →
  IndexByteString (Join elems sep) c = None.
Proof.
  intros Hsep. induction elems as [|x rest IH]; [done|]. intros Hall.
  inversion_clear Hall as [|? ? Hx Hrest].
  destruct rest as [|y rest]; [done|].
  change (Join (x :: y :: rest) sep) with (x +:+ sep +:+ Join (y :: rest) sep).
  rewrite !absent_app. auto.
Qed.

Lemma in_cutset_single (c x : ascii) :
  in_cutset (String c "") x = Ascii.eqb x c.
Proof. unfold in_cutset. simpl. by rewrite orb_false_r. Qed.

Lemma TrimLeft_id (s : string) (c : ascii) :
  IndexByteString s c = None → TrimLeft s (String c "") = s.
Proof.
  destruct s as [|x s]; [done|]. rewrite absent_cons. intros [Hne _].
  simpl. rewrite in_cutset_single. by destruct (Ascii.eqb_spec x c).
Qed.

Lemma TrimRight_id (s : string) (c : ascii) :
  IndexByteString s c = None → TrimRight s (String c "") = s.
Proof.
  induction s as [|x s IH]; [done|]. rewrite absent_cons. intros [Hne Hs].
  simpl. rewrite IH by done. rewrite in_cutset_single.
  destruct s; [|done]. by destruct (Ascii.eqb_spec x c).
Qed.

(** Trimming a byte from a string that does not hold it changes nothing. *)
Lemma Trim_id (s : string) (c : ascii) :
  IndexByteString s c = None → Trim s (String c "") = s.
Proof.
  intros Hs. unfold Trim. rewrite TrimRight_id by done. by apply TrimLeft_id.
Qed.

End StringFacts.

(** ** The loop of [GetMeshCIDRRanges] *)

Section Loop.

Lemma len_0 (s : string) : (len s =? 0)%nat = true ↔ s = "".
Proof. destruct s; simpl; split; congruence. Qed.

(** One round, by the three cases of the token. *)
Lemma cidr_step_cases (cidrSet : gmap string unit) (logged : list string)
      (cidr : string) :
  let t := Trim cidr " " in
  cidr_step (cidrSet, logged) cidr =
    if decide (valid_token t) then (<[t := tt]> cidrSet, logged)
    else if decide (invalid_token t) then (cidrSet, logged ++ [t])
    else (cidrSet, logged).
Proof.
  intros t. unfold cidr_step. fold t.
  destruct (len t =? 0)%nat eqn:Hlen.
  - apply len_0 in Hlen.
    rewrite !decide_False; [done| |]; by intros [? _].
  - assert (t ≠ "") as Hne by (intros H; apply len_0 in H; congruence).
    destruct (ParseCIDR t) as [r|] eqn:Hparse.
    + rewrite decide_True; [done|]. split; [done|]. by rewrite Hparse.
    + rewrite decide_False, decide_True; [done|done|].
      intros [_ [? ?]]. congruence.
Qed.

Lemma valid_invalid (t : string) : valid_token t → invalid_token t → False.
Proof. intros [_ [? H1]] [_ H2]. congruence. Qed.

(** The whole loop: the keys of the map are the valid tokens, and the
    log lists the invalid tokens, one line for each occurrence. *)
Lemma fold_cidr_step (cidrs : list string) (cidrSet : gmap string unit)
      (logged : list string) :
  let st := fold_left cidr_step cidrs (cidrSet, logged) in
  let ts := (λ cidr, Trim cidr " ") <$> cidrs in
  (∀ k, is_Some (st.1 !! k) ↔ is_Some (cidrSet !! k) ∨ k ∈ filter valid_token ts)
  ∧ st.2 = logged ++ filter invalid_token ts.
Proof.
  revert cidrSet logged. induction cidrs as [|cidr cidrs IH]; intros cidrSet logged.
  - simpl. split; [|by rewrite app_nil_r].
    intros k. rewrite filter_nil, elem_of_nil. tauto.
  - cbn [fold_left]. rewrite cidr_step_cases. cbn zeta.
    rewrite fmap_cons, !filter_cons.
    set (t := Trim cidr " ").
    destruct (decide (valid_token t)) as [Hv|Hnv].
    + rewrite (decide_False (P := invalid_token t)) by eauto using valid_invalid.
      destruct (IH (<[t := tt]> cidrSet) logged) as [IH1 IH2]. split; [|done].
      intros k. rewrite IH1, elem_of_cons, lookup_insert_is_Some'.
      split; [intros [[<-|?]|?]|intros [?|[->|?]]]; auto.
    + destruct (decide (invalid_token t)) as [Hi|Hni].
      * destruct (IH cidrSet (logged ++ [t])) as [IH1 IH2]. split; [done|].
        rewrite IH2. by rewrite <- app_assoc.
      * apply IH.
Qed.

(** The keys that [range cidrSet] visits, whatever their order. *)
Lemma keys_Permutation (c : Client) (cidrSet : gmap string unit) (logged : list string) :
  fold_left cidr_step
    (Split (ReplaceAll (MeshCIDRRanges (getConfigMap c)) " " ",") ",") (∅, [])
  = (cidrSet, logged) →
  (map_to_list cidrSet).*1 ≡ₚ remove_dups (filter valid_token (trimmedCIDRs c)).
Proof.
  intros Hfold.
  destruct (fold_cidr_step
              (Split (ReplaceAll (MeshCIDRRanges (getConfigMap c)) " " ",") ",")
              ∅ []) as [Hkeys _].
  rewrite Hfold in Hkeys. simpl in Hkeys.
  apply NoDup_Permutation.
  - apply NoDup_fst_map_to_list.
  - apply NoDup_remove_dups.
  - intros k. rewrite elem_of_remove_dups. unfold trimmedCIDRs. cbn zeta.
    rewrite list_elem_of_fmap. split.
    + intros [[k' []] [-> Hin]]. apply elem_of_map_to_list in Hin.
      destruct (proj1 (Hkeys k')) as [Hempty|Hin']; [by rewrite Hin| |done].
      rewrite lookup_empty in Hempty. by destruct Hempty.
    + intros Hin. destruct (proj2 (Hkeys k)) as [[] Hk]; [by right|].
      exists (k, tt). split; [done|]. by apply elem_of_map_to_list.
Qed.

(** [GetMeshCIDRRanges] in one equation: the valid tokens, each once,
    sorted. *)
Lemma GetMeshCIDRRanges_eq (c : Client) :
  GetMeshCIDRRanges c
  = Strings (remove_dups (filter valid_token (trimmedCIDRs c))).
Proof.
  unfold GetMeshCIDRRanges, GetMeshCIDRRanges_run.
  destruct (fold_left cidr_step _ _) as [cidrSet logged] eqn:Hfold.
  simpl. apply Strings_order_irrelevant. eapply keys_Permutation, Hfold.
Qed.

Lemma GetMeshCIDRRanges_log_eq (c : Client) :
  GetMeshCIDRRanges_log c = filter invalid_token (trimmedCIDRs c).
Proof.
  unfold GetMeshCIDRRanges_log, GetMeshCIDRRanges_run.
  destruct (fold_cidr_step
              (Split (ReplaceAll (MeshCIDRRanges (getConfigMap c)) " " ",") ",")
              ∅ []) as [_ Hlog].
  destruct (fold_left cidr_step _ _) as [cidrSet logged] eqn:Hfold.
  simpl in *. done.
Qed.

(** The order in which [range] visits the map does not show in the
    result: every arrangement [cidrs] of the keys of [cidrSet], as the
    loop left it, is sorted into what [GetMeshCIDRRanges] returns. *)
Theorem GetMeshCIDRRanges_any_order (c : Client) (cidrs : list string) :
  cidrs ≡ₚ (map_to_list
              (fold_left cidr_step
                 (Split (ReplaceAll (MeshCIDRRanges (getConfigMap c)) " " ",") ",")
                 (∅, [])).1).*1 →
  Strings cidrs = GetMeshCIDRRanges c.
Proof.
  intros Hperm. unfold GetMeshCIDRRanges, GetMeshCIDRRanges_run.
  destruct (fold_left cidr_step _ _) as [cidrSet logged].
  by apply Strings_order_irrelevant.
Qed.

Lemma GetMeshCIDRRanges_any_order_witness :
  Strings ["192.168.0.0/16"; "10.0.0.0/8"] = GetMeshCIDRRanges tracingClient
  ∧ Strings ["10.0.0.0/8"; "192.168.0.0/16"] = GetMeshCIDRRanges tracingClient.
Proof.
  split; apply GetMeshCIDRRanges_any_order; vm_compute;
    first [reflexivity | apply perm_swap].
Defined.

Lemma elem_of_GetMeshCIDRRanges (c : Client) (x : string) :
  x ∈ GetMeshCIDRRanges c ↔ x ∈ trimmedCIDRs c ∧ valid_token x.
Proof.
  rewrite GetMeshCIDRRanges_eq, Strings_Permutation, elem_of_remove_dups.
  rewrite list_elem_of_filter. tauto.
Qed.

End Loop.

(** ** The candidates of the loop *)

Section Candidates.

Lemma filter_Forall_id {A} (P : A → Prop) `{∀ x, Decision (P x)} (l : list A) :
  Forall P l → filter P l = l.
Proof.
  induction 1 as [|x l Hx Hl IH]; [done|].
  rewrite filter_cons_True by done. by rewrite IH.
Qed.

Lemma remove_dups_NoDup_id {A} `{EqDecision A} (l : list A) :
  NoDup l → remove_dups l = l.
Proof.
  induction 1 as [|x l Hx Hl IH]; [done|].
  simpl. destruct (decide_rel _ x l); [done|]. by rewrite IH.
Qed.

Lemma MeshCIDRRanges_with (c : Client) (raw : string) :
  MeshCIDRRanges (getConfigMap (withMeshCIDRRanges c raw)) = raw.
Proof. reflexivity. Qed.

(** After [ReplaceAll] no candidate holds a space, and a piece between
    commas holds no comma: [strings.Trim(cidr, " ")] finds nothing to
    remove, and the candidates are the pieces as [Split] cut them. *)
Lemma trimmedCIDRs_eq (c : Client) :
  trimmedCIDRs c
  = Split (ReplaceAll (MeshCIDRRanges (getConfigMap c)) " " ",") ",".
Proof.
  unfold trimmedCIDRs. cbn zeta.
  set (noSpaces := ReplaceAll _ _ _).
  assert (IndexByteString noSpaces " " = None) as Hno
    by (by apply ReplaceAll_absent).
  pose proof (Split_absent noSpaces "," " " Hno) as Hall.
  induction Hall as [|tok toks Htok _ IH]; [done|].
  rewrite fmap_cons, IH. f_equal. by apply Trim_id.
Qed.

Lemma trimmedCIDRs_absent (c : Client) :
  Forall (λ t, IndexByteString t "," = None ∧ IndexByteString t " " = None)
         (trimmedCIDRs c).
Proof.
  rewrite trimmedCIDRs_eq. apply Forall_and. split.
  - apply Split_absent_sep.
  - apply Split_absent. by apply ReplaceAll_absent.
Qed.

Lemma GetMeshCIDRRanges_NoDup (c : Client) : NoDup (GetMeshCIDRRanges c).
Proof.
  rewrite GetMeshCIDRRanges_eq, Strings_Permutation. apply NoDup_remove_dups.
Qed.

Lemma GetMeshCIDRRanges_sorted (c : Client) :
  StronglySorted string_le (GetMeshCIDRRanges c).
Proof. rewrite GetMeshCIDRRanges_eq. apply Strings_sorted. Qed.

Lemma GetMeshCIDRRanges_valid (c : Client) :
  Forall valid_token (GetMeshCIDRRanges c).
Proof.
  apply Forall_forall. intros x Hx. by apply elem_of_GetMeshCIDRRanges in Hx as [_ ?].
Qed.

Lemma GetMeshCIDRRanges_absent (c : Client) :
  Forall (λ t, IndexByteString t "," = None ∧ IndexByteString t " " = None)
         (GetMeshCIDRRanges c).
Proof.
  apply Forall_forall. intros x Hx. apply elem_of_GetMeshCIDRRanges in Hx as [Hx _].
  pose proof (trimmedCIDRs_absent c) as Hall.
  rewrite Forall_forall in Hall. by apply Hall.
Qed.

(** The result for an input that already is a sorted list of distinct
    valid tokens, joined by commas, is that list. *)
Lemma GetMeshCIDRRanges_Join (c : Client) (elems : list string) :
  NoDup elems → Sorted string_le elems → Forall valid_token elems →
  Forall (λ t, IndexByteString t "," = None ∧ IndexByteString t " " = None) elems →
  GetMeshCIDRRanges (withMeshCIDRRanges c (Join elems ",")) = elems.
Proof.
  intros Hnd Hsorted Hvalid Habs. apply Forall_and in Habs as [Hcomma Hspace].
  rewrite GetMeshCIDRRanges_eq, trimmedCIDRs_eq, MeshCIDRRanges_with.
  rewrite ReplaceAll_id by (by apply Join_absent).
  destruct (decide (elems = [])) as [->|Hne]; [done|].
  rewrite Split_Join by done.
  rewrite filter_Forall_id by done.
  rewrite remove_dups_NoDup_id by done.
  by apply Strings_unique.
Qed.

End Candidates.

(** ** What [net.ParseCIDR] accepts *)

Section Parsing.

Lemma slice_split (s : string) (k : nat) : s = slice_to s k +:+ slice_from s k.
Proof.
  revert s. induction k as [|k IH]; intros [|c s]; try done.
  simpl. rewrite append_cons. f_equal. apply IH.
Qed.

Lemma slice_to_len (s : string) : slice_to s (len s) = s.
Proof. induction s as [|c s IH]; simpl; [done|]. f_equal. apply IH. Qed.

Lemma all_bytes_app (P : ascii → bool) (a b : string) :
  all_bytes P (a +:+ b) = all_bytes P a && all_bytes P b.
Proof.
  induction a as [|c a IH]; [done|].
  rewrite append_cons. simpl. rewrite IH. by rewrite andb_assoc.
Qed.

Lemma all_bytes_impl (P Q : ascii → bool) (s : string) :
  (∀ c, P c = true → Q c = true) → all_bytes P s = true → all_bytes Q s = true.
Proof.
  intros HPQ. induction s as [|c s IH]; [done|]. simpl.
  rewrite !andb_true_iff. intros [? ?]. auto.
Qed.

(** A byte outside the class of the bytes of [s] does not occur in [s]. *)
Lemma all_bytes_absent (P : ascii → bool) (s : string) (c : ascii) :
  all_bytes P s = true → P c = false → IndexByteString s c = None.
Proof.
  intros Hs Hc. induction s as [|x s IH]; [done|].
  simpl in Hs. apply andb_true_iff in Hs as [Hx Hs].
  apply absent_cons. split; [congruence|auto].
Qed.

Lemma digit_cidr_byte (c : ascii) : between "0" c "9" = true → cidr_byte c = true.
Proof. intros H. unfold cidr_byte, xdigit. by rewrite H. Qed.

Lemma byte_at_is_0 (s : string) (c : ascii) :
  byte_at_is s 0 c = true → s = String c (slice_from s 1).
Proof.
  destruct s as [|x s]; [done|]. unfold byte_at_is. simpl.
  destruct (Ascii.eqb_spec x c) as [->|]; [|done]. by destruct s.
Qed.

(** [dtoi] and [xtoi] read digits only, from the front of the string. *)
Lemma dtoi_loop_true (s : string) (n : Z) (i : nat) (n' : Z) (j : nat) :
  dtoi_loop s n i = (n', j, true) →
  (i ≤ j)%nat ∧ all_bytes (λ c, between "0" c "9") (slice_to s (j - i)) = true.
Proof.
  revert n i. induction s as [|c s IH]; intros n i; simpl.
  - destruct (i =? 0)%nat; [done|]. intros [= <- <-].
    by rewrite Nat.sub_diag.
  - destruct (between "0" c "9") eqn:Hc.
    + destruct (big <=? n * 10 + (byte c - byte "0")); [done|].
      intros Hloop. apply IH in Hloop as [Hle Hall]. split; [lia|].
      replace (j - i)%nat with (S (j - S i)) by lia. simpl.
      by rewrite Hc, Hall.
    + destruct (i =? 0)%nat; [done|]. intros [= <- <-].
      by rewrite Nat.sub_diag.
Qed.

Lemma dtoi_true (s : string) (n : Z) (j : nat) :
  dtoi s = (n, j, true) → all_bytes cidr_byte (slice_to s j) = true.
Proof.
  intros H. apply dtoi_loop_true in H as [_ H]. rewrite Nat.sub_0_r in H.
  eapply all_bytes_impl; [|done]. apply digit_cidr_byte.
Qed.

Lemma xtoi_loop_true (s : string) (n : Z) (i : nat) (n' : Z) (j : nat) :
  xtoi_loop s n i = (n', j, true) →
  (i ≤ j)%nat ∧ all_bytes cidr_byte (slice_to s (j - i)) = true.
Proof.
  revert n i. induction s as [|c s IH]; intros n i; simpl.
  - destruct (i =? 0)%nat; [done|]. intros [= <- <-].
    by rewrite Nat.sub_diag.
  - destruct (xdigit c) as [d|] eqn:Hc.
    + destruct (big <=? n * 16 + d); [done|].
      intros Hloop. apply IH in Hloop as [Hle Hall]. split; [lia|].
      replace (j - i)%nat with (S (j - S i)) by lia. simpl.
      unfold cidr_byte at 1. by rewrite Hc, Hall.
    + destruct (i =? 0)%nat; [done|]. intros [= <- <-].
      by rewrite Nat.sub_diag.
Qed.

Lemma xtoi_true (s : string) (n : Z) (j : nat) :
  xtoi s = (n, j, true) → all_bytes cidr_byte (slice_to s j) = true.
Proof.
  intros H. apply xtoi_loop_true in H as [_ H]. by rewrite Nat.sub_0_r in H.
Qed.

Lemma consumed_refl (s : string) : consumed s s.
Proof. by exists "". Qed.

Lemma consumed_trans (a b c : string) : consumed a b → consumed b c → consumed a c.
Proof.
  intros [p [-> Hp]] [q [-> Hq]]. exists (p +:+ q). split.
  - by rewrite append_assoc.
  - by rewrite all_bytes_app, Hp, Hq.
Qed.

Lemma consumed_slice (s : string) (k : nat) :
  all_bytes cidr_byte (slice_to s k) = true → consumed s (slice_from s k).
Proof. intros H. exists (slice_to s k). split; [apply slice_split|done]. Qed.

Lemma consumed_byte (s : string) (c : ascii) :
  cidr_byte c = true → byte_at_is s 0 c = true → consumed s (slice_from s 1).
Proof.
  intros Hc Hs. apply byte_at_is_0 in Hs. exists (String c "").
  split; [done|]. simpl. by rewrite Hc.
Qed.

Lemma consumed_all (s : string) : consumed s "" → all_bytes cidr_byte s = true.
Proof. intros [pre [-> H]]. by rewrite append_nil_r. Qed.

Lemma parseIPv4_octet_consumed (i : nat) (s : string) (n : Z) (s' : string) :
  parseIPv4_octet i s = Some (n, s') → consumed s s'.
Proof.
  unfold parseIPv4_octet. destruct (len s =? 0)%nat; [done|].
  assert (∀ s1, match dtoi s1 with
                | (n0, c, ok) =>
                    if negb ok || (0xFF <? n0) then None
                    else Some (n0, slice_from s1 c)
                end = Some (n, s') → consumed s1 s') as Hd.
  { intros s1. destruct (dtoi s1) as [[n0 c] ok] eqn:Hdtoi.
    destruct ok; simpl; [|done]. destruct (0xFF <? n0); [done|].
    intros [= <- <-]. by eapply consumed_slice, dtoi_true. }
  destruct (0 <? i)%nat; [|by apply Hd].
  destruct (byte_at_is s 0 ".") eqn:Hdot; [|done].
  intros H. apply Hd in H. eapply consumed_trans; [|done].
  by apply (consumed_byte s ".").
Qed.

Lemma parseIPv4_loop_consumed (todo i : nat) (s : string) (p p' : list Z)
      (s' : string) :
  parseIPv4_loop todo i s p = Some (p', s') → consumed s s'.
Proof.
  revert i s p. induction todo as [|todo IH]; intros i s p; simpl.
  - intros [= <- <-]. apply consumed_refl.
  - destruct (parseIPv4_octet i s) as [[n s1]|] eqn:Hoct; [|done].
    intros H. apply IH in H. eapply consumed_trans; [|done].
    by eapply parseIPv4_octet_consumed.
Qed.

Lemma parseIPv4_bytes (s : string) (ip : IP) :
  parseIPv4 s = Some ip → all_bytes cidr_byte s = true.
Proof.
  unfold parseIPv4.
  destruct (parseIPv4_loop _ _ _ _) as [[p s']|] eqn:Hloop; [|done].
  apply parseIPv4_loop_consumed in Hloop.
  destruct p as [|a [|b [|c [|d [|? ?]]]]]; try done.
  destruct (len s' =? 0)%nat eqn:Hlen; [|done]. apply len_0 in Hlen as ->.
  intros _. by apply consumed_all.
Qed.

Lemma parseIPv6_loop_consumed (fuel : nat) (ip : IP) (e i : Z) (s : string)
      (ip' : IP) (e' i' : Z) (s' : string) :
  parseIPv6_loop fuel ip e i s = Some (ip', e', i', s') → consumed s s'.
Proof.
  revert ip e i s. induction fuel as [|fuel IH]; intros ip e i s;
    cbn [parseIPv6_loop]; destruct (negb (i <? IPv6len));
    try (intros [= _ _ _ <-]; apply consumed_refl).
  destruct (xtoi s) as [[n c] ok] eqn:Hx.
  destruct ok; cbn [negb orb]; [|done]. destruct (0xFFFF <? n); [done|].
  pose proof (xtoi_true _ _ _ Hx) as Hhex.
  destruct (byte_at_is s c ".").
  - destruct (_ && _); [done|]. destruct (IPv6len <? _); [done|].
    destruct (parseIPv4 s) as [ip4|] eqn:H4; [|done].
    intros [= _ _ _ <-]. exists s. split; [by rewrite append_nil_r|].
    by eapply parseIPv4_bytes.
  - pose proof (consumed_slice s c Hhex) as Hs1.
    set (s1 := slice_from s c) in *.
    destruct (len s1 =? 0)%nat; [by intros [= _ _ _ <-]|].
    destruct (byte_at_is s1 0 ":") eqn:Hc1; cbn [negb orb]; [|done].
    destruct (len s1 =? 1)%nat; [done|].
    pose proof (consumed_byte s1 ":" eq_refl Hc1) as Hs2.
    set (s2 := slice_from s1 1) in *.
    destruct (byte_at_is s2 0 ":") eqn:Hc2.
    + destruct (0 <=? e); [done|].
      pose proof (consumed_byte s2 ":" eq_refl Hc2) as Hs3.
      set (s3 := slice_from s2 1) in *.
      destruct (len s3 =? 0)%nat.
      * intros [= _ _ _ <-]. eauto using consumed_trans.
      * intros H%IH. eauto using consumed_trans.
    + intros H%IH. eauto using consumed_trans.
Qed.

Lemma parseIPv6_bytes (s : string) (ip : IP) :
  parseIPv6 s = Some ip → all_bytes cidr_byte s = true.
Proof.
  unfold parseIPv6.
  destruct ((2 <=? len s)%nat && byte_at_is s 0 ":" && byte_at_is s 1 ":")
    eqn:Hlead.
  - apply andb_true_iff in Hlead as [Hlead H1].
    apply andb_true_iff in Hlead as [_ H0].
    assert (consumed s (slice_from s 2)) as Hs2.
    { apply byte_at_is_0 in H0. rewrite H0 in H1 |- *.
      unfold byte_at_is in H1. simpl in H1.
      change (slice_from (String ":" (slice_from s 1)) 2)
        with (slice_from (slice_from s 1) 1).
      exists (String ":" (String ":" "")). split; [|done].
      rewrite !append_cons, append_nil_l. f_equal.
      apply byte_at_is_0. unfold byte_at_is.
      by destruct (slice_from s 1). }
    cbn [andb]. destruct (len (slice_from s 2) =? 0)%nat eqn:Hlen.
    + apply len_0 in Hlen. rewrite Hlen in Hs2. intros _. by apply consumed_all.
    + destruct (parseIPv6_loop _ _ _ _ _) as [[[[ip1 e1] i1] s1]|] eqn:Hloop; [|done].
      apply parseIPv6_loop_consumed in Hloop.
      destruct (len s1 =? 0)%nat eqn:Hlen1; cbn [negb]; [|done].
      apply len_0 in Hlen1 as ->. intros _.
      apply consumed_all. eauto using consumed_trans.
  - cbn [andb].
    destruct (parseIPv6_loop _ _ _ _ _) as [[[[ip1 e1] i1] s1]|] eqn:Hloop; [|done].
    apply parseIPv6_loop_consumed in Hloop.
    destruct (len s1 =? 0)%nat eqn:Hlen1; cbn [negb]; [|done].
    apply len_0 in Hlen1 as ->. intros _. by apply consumed_all.
Qed.

Lemma IndexByteString_Some (s : string) (c : ascii) (i : nat) :
  IndexByteString s c = Some i →
  s = slice_to s i +:+ String c (slice_from s (i + 1))
  ∧ IndexByteString (slice_to s i) c = None.
Proof.
  revert i. induction s as [|x s IH]; intros i; [done|]. simpl.
  destruct (Ascii.eqb_spec x c) as [->|Hne].
  - intros [= <-]. simpl. split; [|done]. by destruct s.
  - destruct (IndexByteString s c) as [k|] eqn:Hk; [|done].
    intros [= <-]. destruct (IH k eq_refl) as [Hs Habs]. simpl.
    rewrite append_cons. split; [by f_equal|].
    destruct (Ascii.eqb_spec x c); [done|]. by rewrite Habs.
Qed.

Lemma IndexByteString_app_first (a b : string) (c : ascii) :
  IndexByteString a c = None →
  IndexByteString (a +:+ String c b) c = Some (len a).
Proof.
  induction a as [|x a IH].
  - intros _. rewrite append_nil_l. simpl. by rewrite Ascii.eqb_refl.
  - rewrite absent_cons. intros [Hne Ha]. rewrite append_cons. simpl.
    destruct (Ascii.eqb_spec x c); [done|]. by rewrite IH.
Qed.

Lemma len_app (a b : string) : len (a +:+ b) = (len a + len b)%nat.
Proof.
  induction a as [|x a IH]; [done|]. rewrite append_cons.
  unfold len in *. simpl. by rewrite IH.
Qed.

Lemma slice_to_app (a b : string) : slice_to (a +:+ b) (len a) = a.
Proof.
  induction a as [|x a IH]; [by destruct b|].
  rewrite append_cons. simpl. by rewrite IH.
Qed.

Lemma slice_from_app (a b : string) : slice_from (a +:+ b) (len a) = b.
Proof. induction a as [|x a IH]; [by destruct b|]. by rewrite append_cons. Qed.

(** [net.ParseCIDR] accepts the CIDR notations, and nothing else. *)
Lemma ParseCIDR_CIDR_notation (s : string) :
  is_Some (ParseCIDR s) ↔ CIDR_notation s.
Proof.
  unfold ParseCIDR, CIDR_notation. split.
  - destruct (IndexByteString s "/") as [i|] eqn:Hidx; [|by intros [? ?]].
    apply IndexByteString_Some in Hidx as [Hs Habs].
    set (addr := slice_to s i) in *. set (mask := slice_from s (i + 1)) in *.
    destruct (dtoi mask) as [[n j] ok] eqn:Hd.
    destruct (parseIPv4 addr) as [ip4|] eqn:H4.
    + destruct ok; cbn [negb orb]; [|by intros [? ?]].
      destruct (j =? len mask)%nat eqn:Hj; cbn [negb orb]; [|by intros [? ?]].
      apply Nat.eqb_eq in Hj as ->.
      destruct (n <? 0) eqn:Hn0; cbn [orb]; [by intros [? ?]|].
      destruct (8 * IPv4len <? n) eqn:Hn1; [by intros [? ?]|]. intros _.
      exists addr, mask, n. rewrite append_cons, append_nil_l.
      repeat split; [done..|]. left. split; [done|lia].
    + destruct (parseIPv6 addr) as [ip6|] eqn:H6; [|by intros [? ?]].
      destruct ok; cbn [negb orb]; [|by intros [? ?]].
      destruct (j =? len mask)%nat eqn:Hj; cbn [negb orb]; [|by intros [? ?]].
      apply Nat.eqb_eq in Hj as ->.
      destruct (n <? 0) eqn:Hn0; cbn [orb]; [by intros [? ?]|].
      destruct (8 * IPv6len <? n) eqn:Hn1; [by intros [? ?]|]. intros _.
      exists addr, mask, n. rewrite append_cons, append_nil_l.
      repeat split; [done..|]. right. repeat split; [done|done|lia|lia].
  - intros (addr & mask & n & -> & Habs & Hd & Hfam).
    rewrite append_cons, append_nil_l.
    rewrite IndexByteString_app_first by done.
    rewrite slice_to_app.
    replace (len addr + 1)%nat with (len (addr +:+ "/")).
    2:{ by rewrite len_app. }
    replace (addr +:+ String "/" mask) with ((addr +:+ "/") +:+ mask)
      by (by rewrite append_assoc).
    rewrite slice_from_app, Hd, Nat.eqb_refl. cbn [negb orb].
    destruct Hfam as [[[ip4 ->] Hn]|(-> & [ip6 ->] & Hn)].
    + destruct (n <? 0) eqn:Hn0; [lia|]. destruct (8 * IPv4len <? n) eqn:Hn1; [lia|].
      done.
    + destruct (n <? 0) eqn:Hn0; [lia|]. destruct (8 * IPv6len <? n) eqn:Hn1; [lia|].
      done.
Qed.

(** An accepted string is written with the bytes of a CIDR notation. *)
Lemma ParseCIDR_bytes (s : string) :
  is_Some (ParseCIDR s) → all_bytes cidr_byte s = true.
Proof.
  intros (addr & mask & n & -> & _ & Hd & Hfam)%ParseCIDR_CIDR_notation.
  rewrite !all_bytes_app. apply dtoi_true in Hd. rewrite slice_to_len in Hd.
  rewrite Hd. cbn. rewrite andb_true_r.
  destruct Hfam as [[[ip4 H4] _]|(_ & [ip6 H6] & _)].
  - by eapply parseIPv4_bytes.
  - by eapply parseIPv6_bytes.
Qed.

Lemma valid_token_absent (t : string) (c : ascii) :
  valid_token t → cidr_byte c = false → IndexByteString t c = None.
Proof.
  intros [_ Ht] Hc. eapply all_bytes_absent; [|done]. by apply ParseCIDR_bytes.
Qed.

(** A string that holds a byte outside the class is rejected. *)
Lemma ParseCIDR_rejects (s : string) (c : ascii) :
  cidr_byte c = false → IndexByteString s c ≠ None → ParseCIDR s = None.
Proof.
  intros Hc Hs. destruct (ParseCIDR s) as [r|] eqn:Hp; [|done].
  destruct Hs. eapply all_bytes_absent; [|done].
  apply ParseCIDR_bytes. by rewrite Hp.
Qed.

(** The fuel of [parseIPv6_loop] is a bound on the rounds, not a limit:
    with [IPv6len - i <= 2 * fuel] the loop never stops for lack of it,
    so more fuel changes nothing. *)
Lemma parseIPv6_loop_fuel (f1 f2 : nat) (ip : IP) (e i : Z) (s : string) :
  IPv6len - i ≤ 2 * Z.of_nat f1 → IPv6len - i ≤ 2 * Z.of_nat f2 →
  parseIPv6_loop f1 ip e i s = parseIPv6_loop f2 ip e i s.
Proof.
  revert f2 ip e i s. induction f1 as [|f1 IH]; intros [|f2] ip e i s H1 H2;
    cbn [parseIPv6_loop];
    destruct (i <? IPv6len) eqn:Hi; cbn [negb]; try done;
    try (apply Z.ltb_lt in Hi; unfold IPv6len in *; lia).
  destruct (xtoi s) as [[n c] ok].
  repeat first
    [ done
    | apply IH; unfold IPv6len in *; lia
    | match goal with
      | |- context [match parseIPv4 ?x with _ => _ end] => destruct (parseIPv4 x)
      | |- context [if ?b then _ else _] => destruct b eqn:?
      end ].
Qed.

Lemma parseIPv6_enough_fuel (fuel : nat) (ip : IP) (e : Z) (s : string) :
  (8 ≤ fuel)%nat →
  parseIPv6_loop fuel ip e 0 s
  = parseIPv6_loop (Z.to_nat (IPv6len / 2)) ip e 0 s.
Proof.
  intros Hfuel. apply parseIPv6_loop_fuel; unfold IPv6len; [lia|].
  change (Z.to_nat (16 / 2)) with 8%nat. lia.
Qed.

End Parsing.

(** * The mesh CIDR ranges *)

Section StrictlySorted.

(** Sorted without duplicates is strictly increasing. *)
Lemma StronglySorted_strict (l : list string) :
  NoDup l → StronglySorted string_le l →
  StronglySorted (λ a b, Less a b = true) l.
Proof.
  intros Hnd Hs. induction Hs as [|x l Hs IH Hx]; [constructor|].
  apply NoDup_cons in Hnd as [Hnotin Hnd].
  constructor; [auto|].
  rewrite Forall_forall in Hx |- *. intros y Hy.
  apply string_le_neq_Less; [auto|]. intros ->. by apply Hnotin, list_elem_of_In.
Qed.

Lemma StronglySorted_impl {A} (R1 R2 : A → A → Prop) (l : list A) :
  (∀ a b, R1 a b → R2 a b) → StronglySorted R1 l → StronglySorted R2 l.
Proof.
  intros HR. induction 1 as [|x l Hs IH Hx]; constructor; [done|].
  eapply Forall_impl; eauto.
Qed.

End StrictlySorted.

(** C1.  For every raw mesh-CIDR input string, the output of
    [GetMeshCIDRRanges] contains no duplicate strings and is sorted
    lexicographically non-decreasing by string value (and, the two
    together, strictly increasing for Go's [<] on strings). *)
Theorem GetMeshCIDRRanges_unique_and_sorted (c : Client) (raw : string) :
  NoDup (GetMeshCIDRRanges (withMeshCIDRRanges c raw))
  ∧ StronglySorted (λ a b, String.leb a b = true)
      (GetMeshCIDRRanges (withMeshCIDRRanges c raw))
  ∧ StronglySorted (λ a b, Less a b = true)
      (GetMeshCIDRRanges (withMeshCIDRRanges c raw)).
Proof.
  pose proof (GetMeshCIDRRanges_NoDup (withMeshCIDRRanges c raw)) as Hnd.
  pose proof (GetMeshCIDRRanges_sorted (withMeshCIDRRanges c raw)) as Hs.
  split; [done|]. split.
  - eapply StronglySorted_impl; [|done]. intros a b. by rewrite string_le_leb.
  - by apply StronglySorted_strict.
Qed.

(** C2.  For every raw mesh-CIDR input string, every element of the
    sequence returned by [GetMeshCIDRRanges] parses as a syntactically
    valid network address range: [net.ParseCIDR] accepts it, and it is an
    address, a slash and a prefix length within the bounds of the
    address family. *)
Theorem GetMeshCIDRRanges_elements_parse (c : Client) (raw : string) :
  Forall (λ x, is_Some (ParseCIDR x) ∧ CIDR_notation x)
         (GetMeshCIDRRanges (withMeshCIDRRanges c raw)).
Proof.
  eapply Forall_impl; [apply GetMeshCIDRRanges_valid|].
  intros x [_ Hx]. split; [done|]. by apply ParseCIDR_CIDR_notation.
Qed.

(** C3.  [GetMeshCIDRRanges] returns for every raw input (it is a total
    function, and no round of its loop can fail): a token that fails the
    CIDR validation is left out, and logged, while the valid tokens are
    all in the result; an input that is empty or holds no valid token
    gives the empty sequence; and
    "10.0.0.0/8, not-a-cidr, 192.168.1.0/24" gives
    ["10.0.0.0/8"; "192.168.1.0/24"]. *)
Theorem GetMeshCIDRRanges_skips_invalid_tokens (c : Client) (raw : string) :
  (∀ x, x ∈ GetMeshCIDRRanges (withMeshCIDRRanges c raw)
        ↔ x ∈ trimmedCIDRs (withMeshCIDRRanges c raw)
          ∧ x ≠ "" ∧ is_Some (ParseCIDR x))
  ∧ GetMeshCIDRRanges_log (withMeshCIDRRanges c raw)
    = filter invalid_token (trimmedCIDRs (withMeshCIDRRanges c raw))
  ∧ (GetMeshCIDRRanges (withMeshCIDRRanges c raw) = []
     ↔ Forall (λ t, ¬ valid_token t) (trimmedCIDRs (withMeshCIDRRanges c raw)))
  ∧ GetMeshCIDRRanges (withMeshCIDRRanges c "") = []
  ∧ GetMeshCIDRRanges
      (withMeshCIDRRanges c "10.0.0.0/8, not-a-cidr, 192.168.1.0/24")
    = ["10.0.0.0/8"; "192.168.1.0/24"]
  ∧ GetMeshCIDRRanges_log
      (withMeshCIDRRanges c "10.0.0.0/8, not-a-cidr, 192.168.1.0/24")
    = ["not-a-cidr"].
Proof.
  set (c' := withMeshCIDRRanges c raw).
  split; [|split; [|split; [|split; [|split]]]].
  - intros x. apply elem_of_GetMeshCIDRRanges.
  - apply GetMeshCIDRRanges_log_eq.
  - rewrite Forall_forall. split.
    + intros Hnil t Ht Hv.
      assert (t ∈ GetMeshCIDRRanges c') as Hin by (by apply elem_of_GetMeshCIDRRanges).
      rewrite Hnil in Hin. by apply elem_of_nil in Hin.
    + intros Hnone. destruct (GetMeshCIDRRanges c') as [|x l] eqn:Hout; [done|].
      assert (x ∈ GetMeshCIDRRanges c') as Hin by (rewrite Hout; left).
      apply elem_of_GetMeshCIDRRanges in Hin as [Hin Hv]. by destruct (Hnone x).
  - vm_compute. reflexivity.
  - vm_compute. reflexivity.
  - vm_compute. reflexivity.
Qed.

Section Delimiters.

Lemma Split_app_sep (a b : string) (sep : ascii) :
  Split (a +:+ String sep b) sep = Split a sep ++ Split b sep.
Proof.
  induction a as [|x a IH].
  - rewrite append_nil_l. apply Split_cons_sep.
  - rewrite append_cons. simpl. rewrite IH.
    destruct (Ascii.eqb x sep); [done|].
    pose proof (Split_not_nil a sep). by destruct (Split a sep).
Qed.

(** Commas turned into spaces and spaces into commas again: every
    delimiter has become a comma. *)
Lemma ReplaceAll_comma_space (raw : string) :
  ReplaceAll (ReplaceAll raw "," " ") " " "," = ReplaceAll raw " " ",".
Proof.
  induction raw as [|x raw IH]; [done|]. simpl.
  destruct (Ascii.eqb_spec x ",") as [->|Hcomma].
  - rewrite append_cons, append_nil_l. simpl. by rewrite IH.
  - simpl. destruct (Ascii.eqb x " "); by rewrite IH.
Qed.

Lemma ReplaceAll_delimiter (d : ascii) (s : string) :
  is_delimiter d = true →
  ReplaceAll (String d s) " " "," = String "," (ReplaceAll s " " ",").
Proof.
  unfold is_delimiter. simpl.
  destruct (Ascii.eqb_spec d " ") as [->|Hspace]; [done|]. simpl.
  destruct (Ascii.eqb_spec d ",") as [->|]; done.
Qed.

Lemma valid_token_empty : ¬ valid_token "".
Proof. by intros [? _]. Qed.

Lemma GetMeshCIDRRanges_of_raw (c : Client) (raw : string) :
  GetMeshCIDRRanges (withMeshCIDRRanges c raw)
  = Strings (remove_dups (filter valid_token (Split (ReplaceAll raw " " ",") ","))).
Proof. by rewrite GetMeshCIDRRanges_eq, trimmedCIDRs_eq, MeshCIDRRanges_with. Qed.

End Delimiters.

(** C4.  [GetMeshCIDRRanges] treats both comma and space as item
    delimiters: either is turned into the one separator, the comma,
    before the split, so a space may stand for a comma and a comma for a
    space, a delimiter next to a delimiter adds nothing, and the empty
    tokens are discarded; "10.0.0.0/8, 192.168.0.0/16  10.0.0.0/8" gives
    exactly ["10.0.0.0/8"; "192.168.0.0/16"]. *)
Theorem GetMeshCIDRRanges_delimiters (c : Client) (raw a b : string) (d d' : ascii) :
  is_delimiter d = true → is_delimiter d' = true →
  GetMeshCIDRRanges (withMeshCIDRRanges c (ReplaceAll raw " " ","))
  = GetMeshCIDRRanges (withMeshCIDRRanges c raw)
  ∧ GetMeshCIDRRanges (withMeshCIDRRanges c (ReplaceAll raw "," " "))
    = GetMeshCIDRRanges (withMeshCIDRRanges c raw)
  ∧ trimmedCIDRs (withMeshCIDRRanges c raw) = Split (ReplaceAll raw " " ",") ","
  ∧ GetMeshCIDRRanges (withMeshCIDRRanges c (a +:+ String d (String d' b)))
    = GetMeshCIDRRanges (withMeshCIDRRanges c (a +:+ String d b))
  ∧ ("" ∉ GetMeshCIDRRanges (withMeshCIDRRanges c raw))
  ∧ GetMeshCIDRRanges
      (withMeshCIDRRanges c "10.0.0.0/8, 192.168.0.0/16  10.0.0.0/8")
    = ["10.0.0.0/8"; "192.168.0.0/16"].
Proof.
  intros Hd Hd'. split; [|split; [|split; [|split; [|split]]]].
  - rewrite !GetMeshCIDRRanges_of_raw. by rewrite (ReplaceAll_idemp raw " " ",").
  - rewrite !GetMeshCIDRRanges_of_raw. by rewrite ReplaceAll_comma_space.
  - by rewrite trimmedCIDRs_eq, MeshCIDRRanges_with.
  - rewrite !GetMeshCIDRRanges_of_raw, !ReplaceAll_app.
    rewrite (ReplaceAll_delimiter d) by done.
    rewrite (ReplaceAll_delimiter d') by done.
    rewrite (ReplaceAll_delimiter d) by done.
    rewrite !Split_app_sep, Split_cons_sep, !filter_app.
    by rewrite filter_cons_False by apply valid_token_empty.
  - intros Hin. apply elem_of_GetMeshCIDRRanges in Hin as [_ Hv].
    by apply valid_token_empty.
  - vm_compute. reflexivity.
Qed.

Lemma GetMeshCIDRRanges_delimiters_witness :
  is_delimiter "," = true ∧ is_delimiter " " = true
  ∧ GetMeshCIDRRanges
      (withMeshCIDRRanges zeroClient
         ("10.0.0.0/8" +:+ String "," (String " " "192.168.0.0/16")))
    = GetMeshCIDRRanges
        (withMeshCIDRRanges zeroClient
           ("10.0.0.0/8" +:+ String "," "192.168.0.0/16")).
Proof.
  split; [reflexivity|]. split; [reflexivity|].
  apply (GetMeshCIDRRanges_delimiters zeroClient
           "10.0.0.0/8, 192.168.0.0/16  10.0.0.0/8"
           "10.0.0.0/8" "192.168.0.0/16" "," " "); reflexivity.
Defined.

(** C5.  Normalisation is idempotent: joining the output of
    [GetMeshCIDRRanges] with commas and normalising the joined string
    gives the same sequence as normalising the input. *)
Theorem GetMeshCIDRRanges_idempotent (c : Client) (raw : string) :
  GetMeshCIDRRanges
    (withMeshCIDRRanges c
       (Join (GetMeshCIDRRanges (withMeshCIDRRanges c raw)) ","))
  = GetMeshCIDRRanges (withMeshCIDRRanges c raw).
Proof.
  apply GetMeshCIDRRanges_Join.
  - apply GetMeshCIDRRanges_NoDup.
  - apply StronglySorted_Sorted, GetMeshCIDRRanges_sorted.
  - apply GetMeshCIDRRanges_valid.
  - apply GetMeshCIDRRanges_absent.
Qed.

Section Padding.

Lemma ReplaceAll_Repeat (old : ascii) (new : string) (n : nat) :
  ReplaceAll (Repeat (String old "") n) old new = Repeat new n.
Proof.
  induction n as [|n IH]; [done|].
  change (Repeat (String old "") (S n)) with (String old (Repeat (String old "") n)).
  simpl. by rewrite Ascii.eqb_refl, IH.
Qed.

Lemma Split_Repeat_app (sep : ascii) (n : nat) (s : string) :
  Split (Repeat (String sep "") n +:+ s) sep = replicate n "" ++ Split s sep.
Proof.
  induction n as [|n IH]; [done|].
  change (Repeat (String sep "") (S n) +:+ s)
    with (String sep (Repeat (String sep "") n +:+ s)).
  rewrite Split_cons_sep. by rewrite IH.
Qed.

Lemma Split_Repeat (sep : ascii) (n : nat) :
  Split (Repeat (String sep "") n) sep = replicate (S n) "".
Proof.
  rewrite <- (append_nil_r (Repeat _ n)), Split_Repeat_app.
  simpl. by rewrite <- replicate_cons_app.
Qed.

Lemma Split_app_Repeat (sep : ascii) (t : string) (m : nat) :
  IndexByteString t sep = None →
  Split (t +:+ Repeat (String sep "") m) sep = t :: replicate m "".
Proof.
  intros Ht. destruct m as [|m].
  - simpl. rewrite append_nil_r. by apply Split_absent_id.
  - change (Repeat (String sep "") (S m))
      with (String sep (Repeat (String sep "") m)).
    rewrite Split_app by done. by rewrite Split_Repeat.
Qed.

Lemma filter_valid_replicate (n : nat) : filter valid_token (replicate n "") = [].
Proof.
  induction n as [|n IH]; [done|]. simpl.
  by rewrite filter_cons_False by apply valid_token_empty.
Qed.

Lemma ParseCIDR_nonempty (t : string) : is_Some (ParseCIDR t) → t ≠ "".
Proof. intros [r Hr] ->. discriminate Hr. Qed.

Lemma is_delimiter_false (w : ascii) :
  is_delimiter w = false → w ≠ " "%char ∧ w ≠ ","%char.
Proof.
  unfold is_delimiter. intros H. apply orb_false_iff in H as [H1 H2].
  split; intros ->; discriminate.
Qed.

(** A candidate that holds a byte foreign to CIDR notation is validated
    as it stands, and rejected. *)
Lemma GetMeshCIDRRanges_foreign_byte (c : Client) (s : string) (w : ascii) :
  cidr_byte w = false →
  IndexByteString s " " = None → IndexByteString s "," = None →
  IndexByteString s w ≠ None →
  trimmedCIDRs (withMeshCIDRRanges c s) = [s]
  ∧ GetMeshCIDRRanges (withMeshCIDRRanges c s) = [].
Proof.
  intros Hw Hspace Hcomma Hs.
  rewrite GetMeshCIDRRanges_of_raw, trimmedCIDRs_eq, MeshCIDRRanges_with.
  rewrite ReplaceAll_id by done. rewrite Split_absent_id by done.
  split; [done|]. rewrite filter_cons_False; [done|].
  intros [_ [r Hr]]. by rewrite (ParseCIDR_rejects s w) in Hr.
Qed.

End Padding.

(** C9, as the code has it.  Only spaces are taken from around a
    candidate (they are delimiters, and gone before the split): a valid
    CIDR token with spaces around it is in the output of
    [GetMeshCIDRRanges].  Any other byte [w] that is foreign to CIDR
    notation, a tab for one, is not trimmed: the candidate is validated
    with it and left out. *)
Theorem GetMeshCIDRRanges_trims_spaces_only
        (c : Client) (t : string) (n m : nat) (w : ascii) :
  is_Some (ParseCIDR t) → cidr_byte w = false → is_delimiter w = false →
  GetMeshCIDRRanges
    (withMeshCIDRRanges c (Repeat " " n +:+ t +:+ Repeat " " m)) = [t]
  ∧ trimmedCIDRs (withMeshCIDRRanges c (String w t)) = [String w t]
  ∧ GetMeshCIDRRanges (withMeshCIDRRanges c (String w t)) = []
  ∧ trimmedCIDRs (withMeshCIDRRanges c (t +:+ String w ""))
    = [t +:+ String w ""]
  ∧ GetMeshCIDRRanges (withMeshCIDRRanges c (t +:+ String w "")) = [].
Proof.
  intros Ht Hw Hdelim.
  assert (valid_token t) as Hv by (split; [by apply ParseCIDR_nonempty|done]).
  pose proof (valid_token_absent t " " Hv eq_refl) as Hspace.
  pose proof (valid_token_absent t "," Hv eq_refl) as Hcomma.
  apply is_delimiter_false in Hdelim as [Hw1 Hw2].
  assert (IndexByteString (String w t) w ≠ None) as Hfront
    by (simpl; by rewrite Ascii.eqb_refl).
  assert (IndexByteString (t +:+ String w "") w ≠ None) as Hback.
  { intros Habs. apply absent_app in Habs as [_ Habs].
    simpl in Habs. by rewrite Ascii.eqb_refl in Habs. }
  destruct (GetMeshCIDRRanges_foreign_byte c (String w t) w) as [Hf1 Hf2];
    [done|by apply absent_cons|by apply absent_cons|done|].
  destruct (GetMeshCIDRRanges_foreign_byte c (t +:+ String w "") w) as [Hb1 Hb2];
    [done| | |done|].
  { apply absent_app. split; [done|]. by apply absent_cons. }
  { apply absent_app. split; [done|]. by apply absent_cons. }
  repeat split; try done.
  rewrite GetMeshCIDRRanges_of_raw, !ReplaceAll_app, !ReplaceAll_Repeat.
  rewrite (ReplaceAll_id t) by done.
  rewrite Split_Repeat_app, Split_app_Repeat by done.
  rewrite filter_app, filter_valid_replicate.
  rewrite filter_cons_True by done. by rewrite filter_valid_replicate.
Qed.

Lemma GetMeshCIDRRanges_trims_spaces_only_witness :
  is_Some (ParseCIDR "10.0.0.0/8") ∧ cidr_byte "009" = false
  ∧ is_delimiter "009" = false
  ∧ GetMeshCIDRRanges (withMeshCIDRRanges zeroClient "  10.0.0.0/8 ")
    = ["10.0.0.0/8"].
Proof.
  split; [by eexists|]. split; [reflexivity|]. split; [reflexivity|].
  apply (GetMeshCIDRRanges_trims_spaces_only zeroClient "10.0.0.0/8" 2 1 "009");
    [by eexists|reflexivity|reflexivity].
Defined.

(** C9, as the claim has it, fails for a tab: "10.0.0.0/8" is a valid
    CIDR, and with a tab before it or after it the candidate keeps the
    tab and the output is empty. *)
Lemma tab_is_not_trimmed :
  is_Some (ParseCIDR "10.0.0.0/8")
  ∧ trimmedCIDRs (withMeshCIDRRanges zeroClient (String "009" "10.0.0.0/8"))
    = [String "009" "10.0.0.0/8"]
  ∧ ("10.0.0.0/8"
     ∉ GetMeshCIDRRanges
         (withMeshCIDRRanges zeroClient (String "009" "10.0.0.0/8")))
  ∧ ("10.0.0.0/8"
     ∉ GetMeshCIDRRanges
         (withMeshCIDRRanges zeroClient ("10.0.0.0/8" +:+ String "009" ""))).
Proof.
  split; [by eexists|]. split; [by vm_compute|].
  split; vm_compute; apply not_elem_of_nil.
Qed.

(** C10.  [GetMeshCIDRRanges] validates and never rewrites: every
    element of its output is one of the trimmed candidates, byte for
    byte, and these are the pieces of the input between its delimiters.
    "10.0.0.1/8" has host bits set; [net.ParseCIDR] accepts it and
    computes the network 10.0.0.0 with the mask 255.0.0.0, which
    [GetMeshCIDRRanges] drops: it returns "10.0.0.1/8" as written. *)
Theorem GetMeshCIDRRanges_returns_tokens_verbatim (c : Client) (raw : string) :
  Forall (λ x, x ∈ trimmedCIDRs (withMeshCIDRRanges c raw))
         (GetMeshCIDRRanges (withMeshCIDRRanges c raw))
  ∧ trimmedCIDRs (withMeshCIDRRanges c raw) = Split (ReplaceAll raw " " ",") ","
  ∧ ParseCIDR "10.0.0.1/8"
    = Some (IPv4 10 0 0 1, {| net_IP := [10; 0; 0; 0]; net_Mask := [255; 0; 0; 0] |})
  ∧ GetMeshCIDRRanges (withMeshCIDRRanges c "10.0.0.1/8") = ["10.0.0.1/8"]
  ∧ GetMeshCIDRRanges (withMeshCIDRRanges c "10.0.0.1/8") ≠ ["10.0.0.0/8"].
Proof.
  split; [|split; [|split; [|split]]].
  - apply Forall_forall. intros x Hx. by apply elem_of_GetMeshCIDRRanges in Hx as [? _].
  - by rewrite trimmedCIDRs_eq, MeshCIDRRanges_with.
  - vm_compute. reflexivity.
  - vm_compute. reflexivity.
  - vm_compute. discriminate.
Qed.

(** Every occurrence of a rejected token is logged, in the order of the
    input, and nothing else is: a token that comes twice is reported
    twice. *)
Theorem GetMeshCIDRRanges_logs_rejected_tokens (c : Client) (raw : string) :
  GetMeshCIDRRanges_log (withMeshCIDRRanges c raw)
  = filter invalid_token (Split (ReplaceAll raw " " ",") ",")
  ∧ GetMeshCIDRRanges_log
      (withMeshCIDRRanges c "not-a-cidr 10.0.0.0/8,,10.0.0.0/33 not-a-cidr")
    = ["not-a-cidr"; "10.0.0.0/33"; "not-a-cidr"].
Proof.
  split.
  - by rewrite GetMeshCIDRRanges_log_eq, trimmedCIDRs_eq, MeshCIDRRanges_with.
  - vm_compute. reflexivity.
Qed.

(** What [GetMeshCIDRRanges] returns is written with the bytes of CIDR
    notation only: no element holds a blank or a delimiter. *)
Theorem GetMeshCIDRRanges_bytes (c : Client) (raw : string) :
  Forall (λ x, all_bytes cidr_byte x = true)
         (GetMeshCIDRRanges (withMeshCIDRRanges c raw)).
Proof.
  eapply Forall_impl; [apply GetMeshCIDRRanges_valid|].
  intros x [_ Hx]. by apply ParseCIDR_bytes.
Qed.

(** The result is canonical: two inputs with the same valid tokens, in
    whatever order and however often, give the same sequence. *)
Theorem GetMeshCIDRRanges_canonical (c : Client) (raw1 raw2 : string) :
  (∀ x, x ∈ filter valid_token (trimmedCIDRs (withMeshCIDRRanges c raw1))
        ↔ x ∈ filter valid_token (trimmedCIDRs (withMeshCIDRRanges c raw2))) →
  GetMeshCIDRRanges (withMeshCIDRRanges c raw1)
  = GetMeshCIDRRanges (withMeshCIDRRanges c raw2).
Proof.
  intros Hsame. rewrite !GetMeshCIDRRanges_eq.
  apply Strings_order_irrelevant, NoDup_Permutation; try apply NoDup_remove_dups.
  intros x. by rewrite !elem_of_remove_dups.
Qed.

Lemma GetMeshCIDRRanges_canonical_witness :
  GetMeshCIDRRanges
    (withMeshCIDRRanges zeroClient "192.168.0.0/16 10.0.0.0/8 192.168.0.0/16")
  = GetMeshCIDRRanges
      (withMeshCIDRRanges zeroClient "10.0.0.0/8,bad,192.168.0.0/16").
Proof.
  apply GetMeshCIDRRanges_canonical. intros x.
  assert (filter valid_token
            (trimmedCIDRs
               (withMeshCIDRRanges zeroClient
                  "192.168.0.0/16 10.0.0.0/8 192.168.0.0/16"))
          = ["192.168.0.0/16"; "10.0.0.0/8"; "192.168.0.0/16"]) as ->
    by (vm_compute; reflexivity).
  assert (filter valid_token
            (trimmedCIDRs
               (withMeshCIDRRanges zeroClient "10.0.0.0/8,bad,192.168.0.0/16"))
          = ["10.0.0.0/8"; "192.168.0.0/16"]) as ->
    by (vm_compute; reflexivity).
  rewrite !elem_of_cons, elem_of_nil. tauto.
Defined.

(** * The defaulted accessors *)

Section Fallbacks.

Lemma Sprintf_host (host ns : string) :
  Sprintf "%s.%s.svc.cluster.local" [host; ns]
  = host +:+ "." +:+ ns +:+ ".svc.cluster.local".
Proof. reflexivity. Qed.

Lemma eqb_empty (s : string) : String.eqb s "" = true ↔ s = "".
Proof. apply String.eqb_eq. Qed.

(** The three string accessors, by the one test each makes. *)
Lemma GetTracingHost_cases (DefaultTracingHost : string) (c : Client) :
  GetTracingHost DefaultTracingHost c
  = if decide (TracingAddress (getConfigMap c) = "")
    then DefaultTracingHost +:+ "." +:+ GetOSMNamespace c +:+ ".svc.cluster.local"
    else TracingAddress (getConfigMap c).
Proof.
  unfold GetTracingHost. cbn zeta. rewrite Sprintf_host.
  destruct (String.eqb_spec (TracingAddress (getConfigMap c)) "") as [H|H];
    cbn [negb]; [by rewrite decide_True|by rewrite decide_False].
Qed.

Lemma GetTracingEndpoint_cases (DefaultTracingEndpoint : string) (c : Client) :
  GetTracingEndpoint DefaultTracingEndpoint c
  = if decide (TracingEndpoint (getConfigMap c) = "")
    then DefaultTracingEndpoint
    else TracingEndpoint (getConfigMap c).
Proof.
  unfold GetTracingEndpoint. cbn zeta.
  destruct (String.eqb_spec (TracingEndpoint (getConfigMap c)) "") as [H|H];
    cbn [negb]; [by rewrite decide_True|by rewrite decide_False].
Qed.

Lemma GetEnvoyLogLevel_cases (DefaultEnvoyLogLevel : string) (c : Client) :
  GetEnvoyLogLevel DefaultEnvoyLogLevel c
  = if decide (EnvoyLogLevel (getConfigMap c) = "")
    then DefaultEnvoyLogLevel
    else EnvoyLogLevel (getConfigMap c).
Proof.
  unfold GetEnvoyLogLevel. cbn zeta.
  destruct (String.eqb_spec (EnvoyLogLevel (getConfigMap c)) "") as [H|H];
    cbn [negb]; [by rewrite decide_True|by rewrite decide_False].
Qed.

End Fallbacks.

(** C6.  When the snapshot's tracing address is absent, which for the Go
    string is the same as empty, [GetTracingHost] returns the composed
    default "{DefaultTracingHost}.{namespace}.svc.cluster.local", with
    the namespace "osm-system"
    "{DefaultTracingHost}.osm-system.svc.cluster.local"; when the address
    is set, [GetTracingHost] returns it. *)
Theorem GetTracingHost_default (DefaultTracingHost : string) (c : Client) :
  (TracingAddress (getConfigMap c) = "" →
   GetTracingHost DefaultTracingHost c
   = DefaultTracingHost +:+ "." +:+ GetOSMNamespace c +:+ ".svc.cluster.local")
  ∧ (TracingAddress (getConfigMap c) = "" → GetOSMNamespace c = "osm-system" →
     GetTracingHost DefaultTracingHost c
     = DefaultTracingHost +:+ ".osm-system.svc.cluster.local")
  ∧ (TracingAddress (getConfigMap c) ≠ "" →
     GetTracingHost DefaultTracingHost c = TracingAddress (getConfigMap c)).
Proof.
  rewrite GetTracingHost_cases. split; [|split].
  - intros H. by rewrite decide_True.
  - intros H Hns. rewrite decide_True by done. by rewrite Hns.
  - intros H. by rewrite decide_False.
Qed.

Lemma GetTracingHost_default_witness :
  TracingAddress (getConfigMap zeroClient) = ""
  ∧ GetOSMNamespace zeroClient = "osm-system"
  ∧ GetTracingHost "zipkin" zeroClient = "zipkin.osm-system.svc.cluster.local"
  ∧ TracingAddress (getConfigMap tracingClient) ≠ ""
  ∧ GetTracingHost "zipkin" tracingClient = "jaeger.tracing.svc.cluster.local".
Proof.
  split; [reflexivity|]. split; [reflexivity|]. split.
  - apply (proj1 (proj2 (GetTracingHost_default "zipkin" zeroClient)));
      reflexivity.
  - split; [discriminate|].
    apply (proj2 (proj2 (GetTracingHost_default "zipkin" tracingClient))).
    discriminate.
Defined.

(** C7.  When the snapshot's tracing port is zero, which is also what an
    absent port is, [GetTracingPort] returns the compiled-in default
    port; when it is a non-zero port number, 9412 for one,
    [GetTracingPort] returns exactly that number.  (A port number fits
    the 32 bits of the result; section 3 of the specification gives the
    field 16.) *)
Theorem GetTracingPort_default (DefaultTracingPort : Z) (c : Client) :
  (TracingPort (getConfigMap c) = 0 →
   GetTracingPort DefaultTracingPort c = DefaultTracingPort)
  ∧ (TracingPort (getConfigMap c) ≠ 0 → 0 ≤ TracingPort (getConfigMap c) < 2 ^ 32 →
     GetTracingPort DefaultTracingPort c = TracingPort (getConfigMap c))
  ∧ (TracingPort (getConfigMap c) = 9412 →
     GetTracingPort DefaultTracingPort c = 9412).
Proof.
  unfold GetTracingPort, uint32. cbn zeta. split; [|split].
  - intros ->. reflexivity.
  - intros Hne Hrange. apply Z.eqb_neq in Hne as ->. cbn [negb].
    by apply Z.mod_small.
  - intros ->. reflexivity.
Qed.

Lemma GetTracingPort_default_witness :
  TracingPort (getConfigMap zeroClient) = 0
  ∧ GetTracingPort 9411 zeroClient = 9411
  ∧ TracingPort (getConfigMap tracingClient) = 9412
  ∧ GetTracingPort 9411 tracingClient = 9412.
Proof.
  split; [reflexivity|]. split.
  - apply (proj1 (GetTracingPort_default 9411 zeroClient)). reflexivity.
  - split; [reflexivity|].
    apply (proj1 (proj2 (GetTracingPort_default 9411 tracingClient))).
    + discriminate.
    + split; [discriminate|reflexivity].
Defined.

(** C8, as the code has it.  The optional fields of the snapshot are
    plain strings: there is no "absent" apart from the empty string.  An
    accessor falls back to its default exactly when the field is empty,
    however it came to be, and returns every other value as it is. *)
Theorem optional_fields_fall_back_when_empty
        (DefaultTracingHost DefaultTracingEndpoint DefaultEnvoyLogLevel : string)
        (c : Client) :
  GetTracingHost DefaultTracingHost c
  = (if decide (TracingAddress (getConfigMap c) = "")
     then DefaultTracingHost +:+ "." +:+ GetOSMNamespace c +:+ ".svc.cluster.local"
     else TracingAddress (getConfigMap c))
  ∧ GetTracingEndpoint DefaultTracingEndpoint c
    = (if decide (TracingEndpoint (getConfigMap c) = "")
       then DefaultTracingEndpoint
       else TracingEndpoint (getConfigMap c))
  ∧ GetEnvoyLogLevel DefaultEnvoyLogLevel c
    = (if decide (EnvoyLogLevel (getConfigMap c) = "")
       then DefaultEnvoyLogLevel
       else EnvoyLogLevel (getConfigMap c)).
Proof.
  split; [apply GetTracingHost_cases|].
  split; [apply GetTracingEndpoint_cases|apply GetEnvoyLogLevel_cases].
Qed.

(** C8, as the claim has it, fails: a snapshot whose three optional
    fields are set to the empty string does not get the empty string
    back from the accessors, it gets the defaults. *)
Lemma explicit_empty_value_falls_back :
  TracingAddress (getConfigMap zeroClient) = ""
  ∧ TracingEndpoint (getConfigMap zeroClient) = ""
  ∧ EnvoyLogLevel (getConfigMap zeroClient) = ""
  ∧ GetTracingHost "zipkin" zeroClient = "zipkin.osm-system.svc.cluster.local"
  ∧ GetTracingEndpoint "/api/v2/spans" zeroClient = "/api/v2/spans"
  ∧ GetEnvoyLogLevel "error" zeroClient = "error"
  ∧ ¬ (∀ (host : string) (c : Client),
         TracingAddress (getConfigMap c) = "" → GetTracingHost host c = "").
Proof.
  repeat (split; [reflexivity|]).
  intros H. specialize (H "zipkin" zeroClient eq_refl). discriminate H.
Qed.

(** * More on the mesh CIDR ranges *)

Section Items.

Lemma Strings_remove_dups_ext (l1 l2 : list string) :
  (∀ x, x ∈ l1 ↔ x ∈ l2) →
  Strings (remove_dups l1) = Strings (remove_dups l2).
Proof.
  intros Hsame.
  apply Strings_order_irrelevant, NoDup_Permutation; try apply NoDup_remove_dups.
  intros x. by rewrite !elem_of_remove_dups.
Qed.

Lemma length_remove_dups {A} `{EqDecision A} (l : list A) :
  (length (remove_dups l) ≤ length l)%nat.
Proof.
  induction l as [|x l IH]; [done|]. simpl.
  destruct (decide_rel _ x l); simpl; lia.
Qed.

Lemma length_Strings (l : list string) : length (Strings l) = length l.
Proof. apply Permutation_length, Strings_Permutation. Qed.

(** The items of [a], a delimiter, [b] are the items of [a] and then the
    items of [b]. *)
Lemma items_app (a b : string) (d : ascii) :
  is_delimiter d = true →
  Split (ReplaceAll (a +:+ String d b) " " ",") ","
  = Split (ReplaceAll a " " ",") "," ++ Split (ReplaceAll b " " ",") ",".
Proof.
  intros Hd. rewrite ReplaceAll_app, (ReplaceAll_delimiter d) by done.
  apply Split_app_sep.
Qed.

Lemma elem_of_GetMeshCIDRRanges_raw (c : Client) (raw x : string) :
  x ∈ GetMeshCIDRRanges (withMeshCIDRRanges c raw)
  ↔ x ∈ filter valid_token (Split (ReplaceAll raw " " ",") ",").
Proof.
  by rewrite GetMeshCIDRRanges_of_raw, Strings_Permutation, elem_of_remove_dups.
Qed.

Lemma length_items (raw : string) :
  length (Split (ReplaceAll raw " " ",") ",") = S (count_delimiters raw).
Proof.
  induction raw as [|d raw IH]; [done|].
  destruct (is_delimiter d) eqn:Hd.
  - rewrite ReplaceAll_delimiter, Split_cons_sep by done.
    cbn [count_delimiters length]. rewrite Hd, IH. done.
  - apply is_delimiter_false in Hd as Hne. destruct Hne as [Hspace Hcomma].
    cbn [ReplaceAll count_delimiters]. rewrite Hd.
    destruct (Ascii.eqb_spec d " "); [done|].
    destruct (Split_cons_other d (ReplaceAll raw " " ",") "," Hcomma)
      as (tok & toks & Heq & ->).
    rewrite Heq in IH. cbn [length] in IH |- *. lia.
Qed.

Lemma ReplaceAll_only_delimiters (raw : string) :
  all_bytes is_delimiter raw = true →
  ReplaceAll raw " " "," = Repeat "," (len raw).
Proof.
  induction raw as [|d raw IH]; [done|]. cbn [all_bytes].
  intros [Hd Hraw]%andb_true_iff.
  rewrite ReplaceAll_delimiter by done. by rewrite IH.
Qed.

Lemma ReplaceAll_Join (elems : list string) (sep : string) (old : ascii)
      (new : string) :
  ReplaceAll (Join elems sep) old new
  = Join ((λ x, ReplaceAll x old new) <$> elems) (ReplaceAll sep old new).
Proof.
  induction elems as [|x rest IH]; [done|].
  destruct rest as [|y rest]; [done|].
  change (Join (x :: y :: rest) sep) with (x +:+ sep +:+ Join (y :: rest) sep).
  rewrite !ReplaceAll_app, IH. done.
Qed.

Lemma valid_token_no_delimiter (t : string) :
  valid_token t →
  IndexByteString t "," = None ∧ IndexByteString t " " = None.
Proof. intros Hv. split; by apply valid_token_absent. Qed.

End Items.

(** Lists compose: the ranges of two lists put one after the other, with
    a delimiter between them, are the ranges of the first and the ranges
    of the second, each once, sorted. *)
Theorem GetMeshCIDRRanges_app (c : Client) (a b : string) (d : ascii) :
  is_delimiter d = true →
  (∀ x, x ∈ GetMeshCIDRRanges (withMeshCIDRRanges c (a +:+ String d b))
        ↔ x ∈ GetMeshCIDRRanges (withMeshCIDRRanges c a)
          ∨ x ∈ GetMeshCIDRRanges (withMeshCIDRRanges c b))
  ∧ GetMeshCIDRRanges (withMeshCIDRRanges c (a +:+ String d b))
    = Strings (remove_dups (GetMeshCIDRRanges (withMeshCIDRRanges c a)
                            ++ GetMeshCIDRRanges (withMeshCIDRRanges c b))).
Proof.
  intros Hd.
  assert (∀ x, x ∈ GetMeshCIDRRanges (withMeshCIDRRanges c (a +:+ String d b))
               ↔ x ∈ GetMeshCIDRRanges (withMeshCIDRRanges c a)
                 ∨ x ∈ GetMeshCIDRRanges (withMeshCIDRRanges c b)) as Hmem.
  { intros x. rewrite !elem_of_GetMeshCIDRRanges_raw, items_app by done.
    by rewrite filter_app, elem_of_app. }
  split; [done|].
  rewrite (GetMeshCIDRRanges_of_raw c (a +:+ String d b)).
  apply Strings_remove_dups_ext. intros x.
  rewrite elem_of_app, <- Hmem. symmetry. apply elem_of_GetMeshCIDRRanges_raw.
Qed.

Lemma GetMeshCIDRRanges_app_witness :
  is_delimiter " " = true
  ∧ GetMeshCIDRRanges
      (withMeshCIDRRanges zeroClient
         ("192.168.0.0/16,10.0.0.0/8" +:+ String " " "10.0.0.0/8 172.16.0.0/12"))
    = Strings (remove_dups (["10.0.0.0/8"; "192.168.0.0/16"]
                            ++ ["10.0.0.0/8"; "172.16.0.0/12"])).
Proof.
  split; [reflexivity|].
  apply (proj2 (GetMeshCIDRRanges_app zeroClient "192.168.0.0/16,10.0.0.0/8"
                  "10.0.0.0/8 172.16.0.0/12" " " eq_refl)).
Defined.

(** The order of the two parts of a list does not show in the result. *)
Theorem GetMeshCIDRRanges_app_comm (c : Client) (a b : string) (d d' : ascii) :
  is_delimiter d = true → is_delimiter d' = true →
  GetMeshCIDRRanges (withMeshCIDRRanges c (a +:+ String d b))
  = GetMeshCIDRRanges (withMeshCIDRRanges c (b +:+ String d' a)).
Proof.
  intros Hd Hd'. rewrite !GetMeshCIDRRanges_of_raw, !items_app by done.
  apply Strings_remove_dups_ext. intros x.
  rewrite !filter_app, !elem_of_app. tauto.
Qed.

Lemma GetMeshCIDRRanges_app_comm_witness :
  is_delimiter "," = true ∧ is_delimiter " " = true
  ∧ GetMeshCIDRRanges
      (withMeshCIDRRanges zeroClient ("192.168.0.0/16" +:+ String "," "10.0.0.0/8"))
    = GetMeshCIDRRanges
        (withMeshCIDRRanges zeroClient ("10.0.0.0/8" +:+ String " " "192.168.0.0/16")).
Proof.
  split; [reflexivity|]. split; [reflexivity|].
  apply GetMeshCIDRRanges_app_comm; reflexivity.
Defined.

(** A sorted list of distinct valid ranges, joined by either delimiter,
    is read back as it is: these lists are the fixed points of the
    normalisation. *)
Theorem GetMeshCIDRRanges_Join_round_trip
        (c : Client) (elems : list string) (d : ascii) :
  is_delimiter d = true →
  NoDup elems → Sorted string_le elems →
  Forall (λ x, is_Some (ParseCIDR x)) elems →
  GetMeshCIDRRanges (withMeshCIDRRanges c (Join elems (String d ""))) = elems.
Proof.
  intros Hd Hnd Hsorted Hparse.
  assert (Forall valid_token elems) as Hvalid.
  { eapply Forall_impl; [done|]. intros x Hx.
    split; [by apply ParseCIDR_nonempty|done]. }
  assert (Forall (λ t, IndexByteString t "," = None
                       ∧ IndexByteString t " " = None) elems) as Habs.
  { eapply Forall_impl; [done|]. apply valid_token_no_delimiter. }
  rewrite <- (GetMeshCIDRRanges_Join c elems) at 2 by done.
  rewrite !GetMeshCIDRRanges_of_raw. do 3 f_equal.
  rewrite !ReplaceAll_Join.
  rewrite (ReplaceAll_delimiter d "") by done.
  f_equal.
Qed.

Lemma GetMeshCIDRRanges_Join_round_trip_witness :
  is_delimiter " " = true
  ∧ NoDup ["10.0.0.0/8"; "192.168.0.0/16"; "fe80::/10"]
  ∧ Sorted string_le ["10.0.0.0/8"; "192.168.0.0/16"; "fe80::/10"]
  ∧ Forall (λ x, is_Some (ParseCIDR x))
      ["10.0.0.0/8"; "192.168.0.0/16"; "fe80::/10"]
  ∧ GetMeshCIDRRanges
      (withMeshCIDRRanges zeroClient "10.0.0.0/8 192.168.0.0/16 fe80::/10")
    = ["10.0.0.0/8"; "192.168.0.0/16"; "fe80::/10"].
Proof.
  assert (NoDup ["10.0.0.0/8"; "192.168.0.0/16"; "fe80::/10"]) as Hnd
    by compute_done.
  assert (Sorted string_le ["10.0.0.0/8"; "192.168.0.0/16"; "fe80::/10"]) as Hs
    by compute_done.
  assert (Forall (λ x, is_Some (ParseCIDR x))
            ["10.0.0.0/8"; "192.168.0.0/16"; "fe80::/10"]) as Hp
    by (repeat constructor; by eexists).
  split; [reflexivity|]. split; [done|]. split; [done|]. split; [done|].
  apply (GetMeshCIDRRanges_Join_round_trip zeroClient
           ["10.0.0.0/8"; "192.168.0.0/16"; "fe80::/10"] " " eq_refl Hnd Hs Hp).
Defined.

(** Nothing but the empty items is dropped in silence: every candidate
    that is not empty is either returned or logged, never both, and no
    returned range is in the log. *)
Theorem GetMeshCIDRRanges_returned_or_logged (c : Client) (raw : string) :
  Forall (λ t, t = ""
               ∨ ((t ∈ GetMeshCIDRRanges (withMeshCIDRRanges c raw))
                  ∧ (t ∉ GetMeshCIDRRanges_log (withMeshCIDRRanges c raw)))
               ∨ ((t ∉ GetMeshCIDRRanges (withMeshCIDRRanges c raw))
                  ∧ (t ∈ GetMeshCIDRRanges_log (withMeshCIDRRanges c raw))))
         (trimmedCIDRs (withMeshCIDRRanges c raw))
  ∧ Forall (λ x, x ∉ GetMeshCIDRRanges_log (withMeshCIDRRanges c raw))
           (GetMeshCIDRRanges (withMeshCIDRRanges c raw)).
Proof.
  set (c' := withMeshCIDRRanges c raw).
  assert (∀ t, t ∈ GetMeshCIDRRanges_log c' ↔ invalid_token t ∧ t ∈ trimmedCIDRs c')
    as Hlog by (intros t; by rewrite GetMeshCIDRRanges_log_eq, list_elem_of_filter).
  split; apply Forall_forall.
  - intros t Ht. destruct (decide (t = "")) as [->|Hne]; [by left|]. right.
    destruct (ParseCIDR t) as [r|] eqn:Hparse.
    + left. split.
      * apply elem_of_GetMeshCIDRRanges. split; [done|]. split; [done|].
        by rewrite Hparse.
      * rewrite Hlog. intros [[_ Hinv] _]. congruence.
    + right. split.
      * rewrite elem_of_GetMeshCIDRRanges. intros [_ [_ [r Hr]]]. congruence.
      * apply Hlog. by split.
  - intros x Hx. apply elem_of_GetMeshCIDRRanges in Hx as [_ Hv].
    rewrite Hlog. intros [Hinv _]. by eapply valid_invalid.
Qed.

(** At most one range comes back for each item of the list, and the list
    has one item more than it has delimiters. *)
Theorem GetMeshCIDRRanges_length (c : Client) (raw : string) :
  (length (GetMeshCIDRRanges (withMeshCIDRRanges c raw))
   ≤ length (trimmedCIDRs (withMeshCIDRRanges c raw)))%nat
  ∧ length (trimmedCIDRs (withMeshCIDRRanges c raw)) = S (count_delimiters raw)
  ∧ (length (GetMeshCIDRRanges (withMeshCIDRRanges c raw))
     + length (GetMeshCIDRRanges_log (withMeshCIDRRanges c raw))
     ≤ S (count_delimiters raw))%nat.
Proof.
  rewrite GetMeshCIDRRanges_log_eq, GetMeshCIDRRanges_eq, length_Strings.
  rewrite trimmedCIDRs_eq, MeshCIDRRanges_with, length_items.
  set (items := Split (ReplaceAll raw " " ",") ",").
  pose proof (length_remove_dups (filter valid_token items)) as Hdups.
  pose proof (length_filter valid_token items) as Hvalid.
  pose proof (length_items raw) as Hitems. fold items in Hitems.
  assert (length (filter valid_token items) + length (filter invalid_token items)
          ≤ length items)%nat as Hboth.
  { clear. induction items as [|t items IH]; [done|].
    rewrite !filter_cons.
    destruct (decide (valid_token t)) as [Hv|Hv];
      destruct (decide (invalid_token t)) as [Hi|Hi]; cbn [length]; try lia.
    by destruct (valid_invalid t). }
  repeat split; lia.
Qed.

(** Duplicates are found by comparing the tokens as strings, not the
    networks they stand for: two valid tokens that differ are both
    returned, as are "FE80::/10" and "fe80::/10", which [net.ParseCIDR]
    reads as the same address and network. *)
Theorem GetMeshCIDRRanges_dedup_is_textual
        (c : Client) (t1 t2 : string) (d : ascii) :
  is_delimiter d = true →
  is_Some (ParseCIDR t1) → is_Some (ParseCIDR t2) → t1 ≠ t2 →
  t1 ∈ GetMeshCIDRRanges (withMeshCIDRRanges c (t1 +:+ String d t2))
  ∧ t2 ∈ GetMeshCIDRRanges (withMeshCIDRRanges c (t1 +:+ String d t2))
  ∧ length (GetMeshCIDRRanges (withMeshCIDRRanges c (t1 +:+ String d t2))) = 2%nat.
Proof.
  intros Hd H1 H2 Hne.
  assert (valid_token t1) as Hv1 by (split; [by apply ParseCIDR_nonempty|done]).
  assert (valid_token t2) as Hv2 by (split; [by apply ParseCIDR_nonempty|done]).
  destruct (valid_token_no_delimiter t1 Hv1) as [Hc1 Hs1].
  destruct (valid_token_no_delimiter t2 Hv2) as [Hc2 Hs2].
  assert (filter valid_token (Split (ReplaceAll (t1 +:+ String d t2) " " ",") ",")
          = [t1; t2]) as Hitems.
  { rewrite items_app by done. rewrite !ReplaceAll_id by done.
    rewrite !Split_absent_id by done. simpl.
    rewrite filter_cons_True by done. by rewrite filter_cons_True by done. }
  rewrite !elem_of_GetMeshCIDRRanges_raw, GetMeshCIDRRanges_of_raw, Hitems.
  rewrite length_Strings.
  rewrite remove_dups_NoDup_id.
  - repeat split; [left|right; left].
  - apply NoDup_cons. split; [by intros ->%list_elem_of_singleton|].
    apply NoDup_singleton.
Qed.

Lemma GetMeshCIDRRanges_dedup_is_textual_witness :
  is_delimiter "," = true
  ∧ is_Some (ParseCIDR "FE80::/10") ∧ is_Some (ParseCIDR "fe80::/10")
  ∧ "FE80::/10" ≠ "fe80::/10"
  ∧ ParseCIDR "FE80::/10" = ParseCIDR "fe80::/10"
  ∧ length (GetMeshCIDRRanges (withMeshCIDRRanges zeroClient "FE80::/10,fe80::/10"))
    = 2%nat.
Proof.
  split; [reflexivity|]. split; [by eexists|]. split; [by eexists|].
  split; [discriminate|]. split; [reflexivity|].
  apply (GetMeshCIDRRanges_dedup_is_textual zeroClient "FE80::/10" "fe80::/10" ",");
    [reflexivity|by eexists|by eexists|discriminate].
Defined.

(** A list that holds delimiters only, however many, gives no range and
    no log line. *)
Theorem GetMeshCIDRRanges_only_delimiters (c : Client) (raw : string) :
  all_bytes is_delimiter raw = true →
  GetMeshCIDRRanges (withMeshCIDRRanges c raw) = []
  ∧ GetMeshCIDRRanges_log (withMeshCIDRRanges c raw) = [].
Proof.
  intros Hraw.
  assert (∀ n, filter invalid_token (replicate n "") = []) as Hinv.
  { induction n as [|n IH]; [done|]. simpl.
    rewrite filter_cons_False; [done|]. by intros [? _]. }
  rewrite GetMeshCIDRRanges_log_eq, GetMeshCIDRRanges_of_raw.
  rewrite trimmedCIDRs_eq, MeshCIDRRanges_with.
  rewrite ReplaceAll_only_delimiters by done.
  rewrite (Split_Repeat "," (len raw)).
  by rewrite filter_valid_replicate, Hinv.
Qed.

Lemma GetMeshCIDRRanges_only_delimiters_witness :
  all_bytes is_delimiter " , ,,  " = true
  ∧ GetMeshCIDRRanges (withMeshCIDRRanges zeroClient " , ,,  ") = []
  ∧ GetMeshCIDRRanges_log (withMeshCIDRRanges zeroClient " , ,,  ") = [].
Proof.
  split; [reflexivity|].
  apply (GetMeshCIDRRanges_only_delimiters zeroClient " , ,,  " eq_refl).
Defined.

(** * More on the defaulted accessors *)

Section NonEmpty.

Lemma append_empty (a b : string) : a +:+ b = "" → a = "" ∧ b = "".
Proof.
  destruct a; [rewrite append_nil_l; by intros ->|].
  rewrite append_cons. discriminate.
Qed.

End NonEmpty.

(** [GetTracingHost] never returns the empty string, whatever the default
    host and the namespace are: the composed default ends in
    ".svc.cluster.local". *)
Theorem GetTracingHost_not_empty (DefaultTracingHost : string) (c : Client) :
  GetTracingHost DefaultTracingHost c ≠ "".
Proof.
  rewrite GetTracingHost_cases. case_decide as Haddr; [|done].
  intros [_ H]%append_empty. discriminate H.
Qed.

(** With defaults that are not empty, [GetTracingEndpoint] and
    [GetEnvoyLogLevel] never return the empty string. *)
Theorem string_accessors_not_empty
        (DefaultTracingEndpoint DefaultEnvoyLogLevel : string) (c : Client) :
  DefaultTracingEndpoint ≠ "" → DefaultEnvoyLogLevel ≠ "" →
  GetTracingEndpoint DefaultTracingEndpoint c ≠ ""
  ∧ GetEnvoyLogLevel DefaultEnvoyLogLevel c ≠ "".
Proof.
  intros He Hl. rewrite GetTracingEndpoint_cases, GetEnvoyLogLevel_cases.
  split; by case_decide.
Qed.

Lemma string_accessors_not_empty_witness :
  "/api/v2/spans" ≠ "" ∧ "error" ≠ ""
  ∧ GetTracingEndpoint "/api/v2/spans" zeroClient ≠ ""
  ∧ GetEnvoyLogLevel "error" tracingClient ≠ "".
Proof.
  split; [discriminate|]. split; [discriminate|].
  destruct (string_accessors_not_empty "/api/v2/spans" "error" zeroClient)
    as [He _]; [discriminate|discriminate|].
  destruct (string_accessors_not_empty "/api/v2/spans" "error" tracingClient)
    as [_ Hl]; [discriminate|discriminate|].
  split; [exact He|exact Hl].
Defined.

(** With a default port that is a non-zero 32-bit number and a snapshot
    port that fits 32 bits, [GetTracingPort] never returns zero, and
    what it returns fits 32 bits. *)
Theorem GetTracingPort_not_zero (DefaultTracingPort : Z) (c : Client) :
  0 < DefaultTracingPort < 2 ^ 32 →
  0 ≤ TracingPort (getConfigMap c) < 2 ^ 32 →
  0 < GetTracingPort DefaultTracingPort c < 2 ^ 32.
Proof.
  intros Hdef Hport. unfold GetTracingPort, uint32. cbn zeta.
  destruct (Z.eqb_spec (TracingPort (getConfigMap c)) 0) as [H0|Hne];
    cbn [negb]; [done|].
  rewrite Z.mod_small by done. lia.
Qed.

Lemma GetTracingPort_not_zero_witness :
  0 < 9411 < 2 ^ 32 ∧ 0 ≤ TracingPort (getConfigMap tracingClient) < 2 ^ 32
  ∧ 0 < GetTracingPort 9411 tracingClient < 2 ^ 32.
Proof.
  split; [split; reflexivity|]. split; [split; [discriminate|reflexivity]|].
  apply GetTracingPort_not_zero; [split; reflexivity|].
  split; [discriminate|reflexivity].
Defined.
